(** * OLAP cubes over aggregation pipelines: [createCube] and [queryCube]

    A shallow embedding of [create_cube.js] and [query_cube.js].  Pipelines
    are plain JavaScript data (arrays and objects of strings, numbers,
    booleans, [null] and [undefined]).  Objects are association lists kept in
    the order in which [Object.keys] enumerates them, with distinct keys,
    because the code inspects [Object.keys(x)[0]] and the shape of the
    produced pipelines depends on insertion order.  Numbers are the integers,
    strings are lists of code units.

    The first part is a purely functional reading of [createCube],
    [checkCompatibility], [createPipeline] and [queryCube].
    [checkCompatibility] deletes a property of an object it obtained from
    [JSON.parse(JSON.stringify(ppl))]; module [Heap] models that function
    again over an explicit store of mutable objects, where the difference
    between deleting from the copy and deleting from the caller's object is
    visible.  The last section shows that the two models return the same
    result. *)

From Stdlib Require Import ZArith List String Ascii Lia Bool.
From stdpp Require Import prelude strings pretty.

(** ** Values *)

#[warnings="-register-all"] Inductive value :=
  | JUndefined
  | JNull
  | JBool (b : bool)
  | JNum (n : Z)
  | JStr (s : string)
  | JArr (elems : list value)
  | JObj (props : list (string * value)).

Abbreviation object := (list (string * value)).

(** ** Exceptions

    The code throws [new Error(message)] twice; every other failure is a
    [TypeError] of the runtime (reading a property of [undefined] or [null],
    calling a method that does not exist, a cycle met by [JSON.stringify])
    or the [SyntaxError] of [JSON.parse]. *)

Inductive exn :=
  | Error (message : string)
  | TypeError
  | SyntaxError.

Inductive result (A : Type) :=
  | Return (a : A)
  | Throw (e : exn).
Arguments Return {A} a.
Arguments Throw {A} e.

#[global] Instance result_ret : MRet result := @Return.
#[global] Instance result_bind : MBind result := λ A B f m,
  match m with Return a => f a | Throw e => Throw e end.

(** ** Strings *)

(** [s.slice(1)] *)
Definition js_slice1 (s : string) : string :=
  match s with
  | EmptyString => EmptyString
  | String _ r => r
  end.

(** [s.replace(c, r)] for a one-character pattern [c] and a one-character
    replacement [r]: a string pattern replaces the first occurrence only. *)
Fixpoint js_replace (c r : ascii) (s : string) : string :=
  match s with
  | EmptyString => EmptyString
  | String a s' =>
      if Ascii.eqb a c then String r s' else String a (js_replace c r s')
  end.

(** The reading of "dots replaced by underscores" where every occurrence is
    replaced, for comparison with [js_replace]. *)
Fixpoint replace_all (c r : ascii) (s : string) : string :=
  match s with
  | EmptyString => EmptyString
  | String a s' =>
      String (if Ascii.eqb a c then r else a) (replace_all c r s')
  end.

(** ** Property order

    A property key that is the canonical decimal form of an integer below
    [2^32 - 1] is an array index.  [Object.keys] lists array indices first,
    in increasing order, then the other keys in insertion order. *)

Definition digit_of (c : ascii) : option N :=
  let n := N_of_ascii c in
  if ((48 <=? n) && (n <=? 57))%N then Some (n - 48)%N else None.

Fixpoint digits_val (s : string) (acc : N) : option N :=
  match s with
  | EmptyString => Some acc
  | String c s' =>
      match digit_of c with
      | Some d => digits_val s' (acc * 10 + d)%N
      | None => None
      end
  end.

Definition array_index (k : string) : option N :=
  match k with
  | EmptyString => None
  | String "0"%char EmptyString => Some 0%N
  | String "0"%char _ => None
  | _ =>
      match digits_val k 0 with
      | Some n => if (n <? 4294967295)%N then Some n else None
      | None => None
      end
  end.

Definition has_key (k : string) (o : object) : bool :=
  existsb (λ p, String.eqb p.1 k) o.

Fixpoint obj_get (k : string) (o : object) : value :=
  match o with
  | [] => JUndefined
  | (k', v) :: o' => if String.eqb k' k then v else obj_get k o'
  end.

Fixpoint obj_update (k : string) (v : value) (o : object) : object :=
  match o with
  | [] => []
  | (k', v') :: o' =>
      if String.eqb k' k then (k, v) :: o' else (k', v') :: obj_update k v o'
  end.

Fixpoint obj_insert_index (n : N) (k : string) (v : value) (o : object)
  : object :=
  match o with
  | [] => [(k, v)]
  | (k', v') :: o' =>
      match array_index k' with
      | Some n' =>
          if (n' <? n)%N then (k', v') :: obj_insert_index n k v o'
          else (k, v) :: o
      | None => (k, v) :: o
      end
  end.

(** Defining an own data property: an object literal entry, a spread entry,
    lodash's [assignValue].  An existing key keeps its place. *)
Definition obj_define (k : string) (v : value) (o : object) : object :=
  if has_key k o then obj_update k v o
  else match array_index k with
       | Some n => obj_insert_index n k v o
       | None => o ++ [(k, v)]
       end.

(** The assignment [o[k] = v] on a plain object: the key [__proto__] reaches
    the inherited setter and never creates an own property. *)
Definition obj_assign (k : string) (v : value) (o : object) : object :=
  if String.eqb k "__proto__" then o else obj_define k v o.

(** [{ ...a, ...b }] continues [a] with the entries of [b]. *)
Definition obj_spread (a b : object) : object :=
  fold_left (λ o p, obj_define p.1 p.2 o) b a.

(** [delete o[k]] *)
Definition obj_delete (k : string) (o : object) : object :=
  filter (λ p, p.1 ≠ k) o.

(** ** Reading values *)

Definition index_entries (l : list value) : object :=
  imap (λ i x, (pretty i, x)) l.

Definition chars (s : string) : list value :=
  map (λ c, JStr (String c EmptyString)) (list_ascii_of_string s).

(** The own enumerable string-keyed properties of a value, in order. *)
Definition entries (v : value) : object :=
  match v with
  | JObj o => o
  | JArr l => index_entries l
  | JStr s => index_entries (chars s)
  | _ => []
  end.

(** [Object.keys(v)] *)
Definition Object_keys (v : value) : result (list string) :=
  match v with
  | JUndefined | JNull => Throw TypeError
  | _ => Return (entries v).*1
  end.

(** lodash [values(v)] and [toPairs(v)]; both are empty on [null] and
    [undefined]. *)
Definition values (v : value) : list value := (entries v).*2.
Definition toPairs (v : value) : list (string * value) := entries v.

(** lodash [isObject(v)] *)
Definition isObject (v : value) : bool :=
  match v with
  | JArr _ | JObj _ => true
  | _ => false
  end.

(** lodash [isEmpty(o)] on a plain object *)
Definition isEmpty (o : object) : bool :=
  match o with [] => true | _ => false end.

(** [v === 1] *)
Definition is_one (v : value) : bool :=
  match v with
  | JNum 1 => true
  | _ => false
  end.

(** [l[i]] on an array *)
Definition js_nth (l : list value) (i : nat) : value :=
  default JUndefined (l !! i).

(** [v.k] for a key [k] that is neither an array index nor the name of a
    built-in property ([$group], [_id]). *)
Definition get_field (v : value) (k : string) : result value :=
  match v with
  | JUndefined | JNull => Throw TypeError
  | JObj o => Return (obj_get k o)
  | _ => Return JUndefined
  end.

(** [delete v.k], same keys; gives back the value as it is afterwards. *)
Definition js_delete (v : value) (k : string) : result value :=
  match v with
  | JUndefined | JNull => Throw TypeError
  | JObj o => Return (JObj (obj_delete k o))
  | _ => Return v
  end.

(** [JSON.parse(JSON.stringify(v))]: properties holding [undefined] are
    omitted, [undefined] array elements are written as [null].  The numbers
    of this development are the integers, which the text reproduces; [NaN]
    and the infinities, which [JSON.stringify] writes as [null], and the
    negative zero, which it writes as [0], are not among them. *)
Fixpoint json_clone (v : value) : value :=
  match v with
  | JArr l =>
      JArr (map (λ x, match x with
                      | JUndefined => JNull
                      | _ => json_clone x
                      end) l)
  | JObj o =>
      JObj ((fix go (o : object) : object :=
               match o with
               | [] => []
               | (k, x) :: o' =>
                   match x with
                   | JUndefined => go o'
                   | _ => (k, json_clone x) :: go o'
                   end
               end) o)
  | _ => v
  end.

(** The object case of [json_clone]. *)
Definition clone_props (o : object) : object :=
  (fix go (o : object) : object :=
     match o with
     | [] => []
     | (k, x) :: o' =>
         match x with
         | JUndefined => go o'
         | _ => (k, json_clone x) :: go o'
         end
     end) o.

(** [JSON.parse(JSON.stringify(ppl))] on the array of stages. *)
Definition clone_array (l : list value) : list value :=
  map (λ x, match x with JUndefined => JNull | _ => json_clone x end) l.

(** [l.every(f)] with a callback that may throw *)
Fixpoint js_every {A} (f : A → result bool) (l : list A) : result bool :=
  match l with
  | [] => Return true
  | x :: l' => b ← f x; if b : bool then js_every f l' else Return false
  end.

(** ** query_cube.js *)

Definition tuple : Type := string * string * string.

Definition msg_not_group : string :=
  "pipeline incompatible, must start with $group stage.".
Definition msg_unsupported : string :=
  "pipeline incompatible, only $sum, $min, $max, $avg aggregate functions supported.".

(** [["$sum", "$min", "$max", "$avg"].includes(op)], [op] possibly
    [undefined] *)
Definition supported (op : option string) : bool :=
  match op with
  | Some k => existsb (String.eqb k) ["$sum"; "$min"; "$max"; "$avg"]
  | None => false
  end.

(** The callback of [values(group).every]. *)
Definition valid_accumulator (val : value) : result bool :=
  keys ← Object_keys val;
  mret (supported (keys !! 0)).

(** The callback of [toPairs(group).map]. *)
Definition tuple_of (p : string * value) : result tuple :=
  let '(field, val) := p in
  keys ← Object_keys val;
  op ← match keys !! 0 with
       | Some k => Return (js_slice1 k)
       | None => Throw TypeError
       end;
  let meas := js_nth (values val) 0 in
  let '(op, meas) :=
    if isObject meas || is_one meas then ("count", JStr "$count")
    else (op, meas) in
  (* [meas.slice(1)]: objects and arrays were replaced just above; no other
     value than a string has a [slice] method *)
  match meas with
  | JStr s => Return (field, op, js_slice1 s)
  | _ => Throw TypeError
  end.

Definition checkCompatibility (ppl : list value) : result (list tuple) :=
  keys ← Object_keys (js_nth ppl 0);
  if bool_decide (keys !! 0 ≠ Some "$group") then Throw (Error msg_not_group)
  else
    (* clone the pipeline *)
    let ppl := clone_array ppl in
    (* extract group stage *)
    group ← get_field (js_nth ppl 0) "$group";
    group ← js_delete group "_id";
    (* check we only have supported aggregate operators *)
    valid ← js_every valid_accumulator (values group);
    if negb valid then Throw (Error msg_unsupported)
    else
      (* construct the tuples for createPipeline *)
      mapM tuple_of (toPairs group).

Record builders := Builders {
  measGroup : object;
  measSet : object;
  measProject : object;
}.

(** The callback of [tuples.forEach]. *)
Definition add_tuple (b : builders) (t : tuple) : builders :=
  let '(f, a, m) := t in
  let project := obj_assign f (JStr ("$" +:+ m +:+ "_" +:+ a)) (measProject b) in
  if String.eqb a "count" then
    {| measGroup := obj_assign "count" (JObj [("$sum", JStr "$count")]) (measGroup b);
       measSet := measSet b;
       measProject := obj_assign f (JStr "$count") project |}
  else if String.eqb a "avg" then
    {| measGroup :=
         obj_assign "count" (JObj [("$sum", JStr "$count")])
           (obj_assign (m +:+ "_sum")
              (JObj [("$sum", JStr ("$" +:+ m +:+ ".sum"))]) (measGroup b));
       measSet :=
         obj_assign (m +:+ "_avg")
           (JObj [("$divide", JArr [JStr ("$" +:+ m +:+ "_sum"); JStr "$count"])])
           (measSet b);
       measProject := project |}
  else
    {| measGroup :=
         obj_assign (m +:+ "_" +:+ a)
           (JObj [("$" +:+ a, JStr ("$" +:+ m +:+ "." +:+ a))]) (measGroup b);
       measSet := measSet b;
       measProject := project |}.

Definition createPipeline (ppl : list value) (tuples : list tuple)
  : result (list value) :=
  let b := fold_left add_tuple tuples
             {| measGroup := []; measSet := [];
                measProject := [("_id", JNum 1)] |} in
  oldGroup ← get_field (js_nth ppl 0) "$group";
  _id ← get_field oldGroup "_id";
  let group := JObj [("$group", JObj (obj_spread [("_id", _id)] (measGroup b)))] in
  let set := JObj [("$set", JObj (measSet b))] in
  let project := JObj [("$project", JObj (measProject b))] in
  mret (group :: (if isEmpty (measSet b) then [] else [set])
              ++ project :: drop 1 ppl).

Definition queryCube (pipeline : list value) : result (list value) :=
  tuples ← checkCompatibility pipeline;
  createPipeline pipeline tuples.

(** ** create_cube.js *)

(** lodash [zipObject(props, values)]; a missing value is [undefined]. *)
Fixpoint zip_into (props : list string) (vals : list value) (o : object)
  : object :=
  match props with
  | [] => o
  | k :: props' =>
      zip_into props' (tail vals) (obj_define k (js_nth vals 0) o)
  end.

Definition zipObject (props : list string) (vals : list value) : object :=
  zip_into props vals [].

(** The four keys of [mapMeasure]'s literal are distinct and none is an array
    index, so the literal lists them as written. *)
Definition mapMeasure (measure : string) : object :=
  [ (measure +:+ "_sum", JObj [("$sum", JStr ("$" +:+ measure))]);
    (measure +:+ "_min", JObj [("$min", JStr ("$" +:+ measure))]);
    (measure +:+ "_max", JObj [("$max", JStr ("$" +:+ measure))]);
    (measure +:+ "_count",
       JObj [("$sum",
              JObj [("$cond",
                     JObj [("if", JStr ("$" +:+ measure));
                           ("then", JNum 1); ("else", JNum 0)])])]) ].

Definition nestedMeasure (measure : string) : object :=
  [ (measure,
     JObj [("sum", JStr ("$" +:+ measure +:+ "_sum"));
           ("min", JStr ("$" +:+ measure +:+ "_min"));
           ("max", JStr ("$" +:+ measure +:+ "_max"));
           ("count", JStr ("$" +:+ measure +:+ "_count"))]) ].

Definition dashedDimensions (dimensions : list string) : list string :=
  js_replace "." "_" <$> dimensions.

Definition dollaredDimensions (dimensions : list string) : list value :=
  (λ d, JStr ("$" +:+ d)) <$> dimensions.

Definition mappedMeasures (measures : list string) : object :=
  fold_left (λ acc val, obj_spread (obj_spread [] acc) (mapMeasure val))
    measures [].

Definition nestedMeasures (measures : list string) : object :=
  fold_left (λ acc val, obj_spread (obj_spread [] acc) (nestedMeasure val))
    measures [].

Definition _idDimensions (dimensions : list string) : list value :=
  (λ d, JStr ("$_id." +:+ d)) <$> dashedDimensions dimensions.

Definition unwrappedDimensions (dimensions : list string) : object :=
  zipObject dimensions (_idDimensions dimensions).

Definition cube_group (dimensions measures : list string) : object :=
  obj_spread
    [ ("_id", JObj (zipObject (dashedDimensions dimensions)
                              (dollaredDimensions dimensions)));
      ("count", JObj [("$sum", JNum 1)]) ]
    (mappedMeasures measures).

Definition cube_project (dimensions measures : list string) : object :=
  obj_spread
    (obj_spread [("_id", JNum 0); ("count", JNum 1)]
                (nestedMeasures measures))
    (unwrappedDimensions dimensions).

Definition createCube (dimensions measures : list string)
    (outCollection : value) : list value :=
  [ JObj [("$group", JObj (cube_group dimensions measures))];
    JObj [("$project", JObj (cube_project dimensions measures))];
    JObj [("$out", outCollection)] ].

(** ** The pipelines of the README *)

Definition p1 : list value :=
  [ JObj [("$group", JObj [("_id", JNull);
                            ("count", JObj [("$sum", JNum 1)])])] ].

Definition p2 : list value :=
  [ JObj [("$group",
           JObj [("_id", JStr "$Model Year");
                 ("avg_weight", JObj [("$avg", JStr "$Unladen Weight")])])];
    JObj [("$sort", JObj [("avg_weight", JNum (-1))])];
    JObj [("$limit", JNum 3)] ].

(** What the README prints for [queryCube(p2)]. *)
Definition safe_divide (num den : string) : value :=
  JObj [("$cond",
         JObj [("if", JObj [("$eq", JArr [JStr den; JNum 0])]);
               ("then", JNull);
               ("else", JObj [("$divide", JArr [JStr num; JStr den])])])].

Definition readme_rewritten_p2 : list value :=
  [ JObj [("$group",
           JObj [("_id", JStr "$Model Year");
                 ("Unladen Weight_sum",
                    JObj [("$sum", JStr "$Unladen Weight.sum")]);
                 ("Unladen Weight_count",
                    JObj [("$sum", JStr "$Unladen Weight.count")])])];
    JObj [("$set",
           JObj [("Unladen Weight_avg",
                  safe_divide "$Unladen Weight_sum" "$Unladen Weight_count")])];
    JObj [("$project",
           JObj [("_id", JNum 1); ("avg_weight", JStr "$Unladen Weight_avg")])];
    JObj [("$sort", JObj [("avg_weight", JNum (-1))])];
    JObj [("$limit", JNum 3)] ].

(** What [createPipeline] writes for an [avg] tuple. *)
Definition naive_divide (m : string) : value :=
  JObj [("$divide", JArr [JStr ("$" +:+ m +:+ "_sum"); JStr "$count"])].

(** ** Notions used in the statements *)

(** The fields of a grouping stage that [checkCompatibility] scans: those
    of the copy, without [_id]. *)
Definition group_fields (props : object) : object :=
  obj_delete "_id" (clone_props props).

(** [Object.keys(val)[0]] *)
Definition operator_key (val : value) : option string :=
  (entries val).*1 !! 0%nat.

(** [values(val)[0]] *)
Definition operand (val : value) : value := js_nth (values val) 0.

Definition only_TypeError {A} (r : result A) : Prop :=
  ∀ e, r = Throw e → e = TypeError.

(** After the first check, the scan of the grouping stage. *)
Definition scan (group : value) : result (list tuple) :=
  valid ← js_every valid_accumulator (values group);
  if negb valid then Throw (Error msg_unsupported)
  else mapM tuple_of (toPairs group).

Definition is_string (v : value) : bool :=
  match v with JStr _ => true | _ => false end.

(** A direct field reference: a string that begins with the dollar sign. *)
Definition is_field_reference (v : value) : bool :=
  match v with
  | JStr (String "$"%char _) => true
  | _ => false
  end.

(** The operands taken for a count. *)
Definition is_count_pattern (v : value) : bool := isObject v || is_one v.

(** The operands on which [meas.slice(1)] fails. *)
Definition rejected_operand (v : value) : bool :=
  negb (is_count_pattern v || is_string v).

(** The tuple read off an accumulator whose operand is not rejected. *)
Definition expected_tuple (p : string * value) : tuple :=
  match operand p.2 with
  | JStr s => (p.1, js_slice1 (default "" (operator_key p.2)), js_slice1 s)
  | _ => (p.1, "count", "count")
  end.

(** Every field of the [$set] stage is a bare division by [$count]. *)
Definition naive_entry (p : string * value) : Prop :=
  ∃ m, p = (m +:+ "_avg", naive_divide m).

(** The suffixes of the accumulator names of one measure. *)
Definition measure_keys (m : string) : list string :=
  [m +:+ "_sum"; m +:+ "_min"; m +:+ "_max"; m +:+ "_count"].

(** The condition on names under which the field counts are claimed: the
    names are pairwise distinct, the encoded dimension names are pairwise
    distinct, and no name is [count]. *)
Definition distinct_names (dimensions measures : list string) : Prop :=
  NoDup (dimensions ++ measures)
  ∧ NoDup (dashedDimensions dimensions)
  ∧ "count" ∉ dashedDimensions dimensions ++ measures.

Definition tuple_field (t : tuple) : string := t.1.1.
Definition tuple_operator (t : tuple) : string := t.1.2.
Definition tuple_measure (t : tuple) : string := t.2.

(** The operators of the tuples. *)
Definition tuple_operators : list string :=
  ["sum"; "min"; "max"; "avg"; "count"].

(** The field a tuple is projected from: [count], or [m_a]. *)
Definition projected_field (t : tuple) : string :=
  let '(f, a, m) := t in
  if String.eqb a "count" then "count" else m +:+ "_" +:+ a.

Definition is_avg (t : tuple) : bool := String.eqb (tuple_operator t) "avg".

(** The fields of the rewritten grouping stage that a tuple needs. *)
Definition grouped_fields (t : tuple) : list string :=
  let '(f, a, m) := t in
  if String.eqb a "count" then ["count"]
  else if String.eqb a "avg" then [m +:+ "_sum"; "count"]
  else [m +:+ "_" +:+ a].

(** The builders before the first tuple. *)
(** The accumulators a tuple asks of the grouping stage over the cube, as
    the three branches of the loop of [createPipeline] write them. *)
Definition grouped_accumulators (t : tuple) : object :=
  let '(f, a, m) := t in
  if String.eqb a "count" then [("count", JObj [("$sum", JStr "$count")])]
  else if String.eqb a "avg"
       then [(m +:+ "_sum", JObj [("$sum", JStr ("$" +:+ m +:+ ".sum"))]);
             ("count", JObj [("$sum", JStr "$count")])]
       else [(m +:+ "_" +:+ a,
              JObj [("$" +:+ a, JStr ("$" +:+ m +:+ "." +:+ a))])].

Definition empty_builders : builders :=
  {| measGroup := []; measSet := []; measProject := [("_id", JNum 1)] |}.

(** Data that JSON can write: no [undefined] anywhere. *)
Fixpoint is_json (v : value) : bool :=
  match v with
  | JUndefined => false
  | JArr l => forallb is_json l
  | JObj o => forallb (λ p, is_json p.2) o
  | _ => true
  end.

(** An object whose keys are distinct, as those of every JavaScript object
    are. *)
Definition distinct_keys (v : value) : Prop :=
  match v with
  | JObj o => NoDup o.*1
  | _ => True
  end.

Fixpoint count_char (c : ascii) (s : string) : nat :=
  match s with
  | EmptyString => 0
  | String a s' => (if Ascii.eqb a c then 1 else 0) + count_char c s'
  end.

(** ** The same function over a store of mutable objects *)

Module Heap.

(** A value is a primitive or a reference to an object of the store. *)
Inductive val :=
  | VUndefined
  | VNull
  | VBool (b : bool)
  | VNum (n : Z)
  | VStr (s : string)
  | VRef (l : nat).

Inductive cell :=
  | CArr (elems : list val)
  | CObj (props : list (string * val)).

(** The store; a new object is appended, its reference is its position. *)
Abbreviation heap := (list cell).

(** Computations that read and update the store and may throw; the store
    reached when the exception is thrown is kept. *)
Definition js (A : Type) : Type := heap → result A * heap.

#[global] Instance js_ret : MRet js := λ A a h, (Return a, h).
#[global] Instance js_bind : MBind js := λ A B f m h,
  match m h with
  | (Return a, h') => f a h'
  | (Throw e, h') => (Throw e, h')
  end.

Definition throw {A} (e : exn) : js A := λ h, (Throw e, h).

(** Reading the store. *)
Definition read {A} (f : heap → result A) : js A := λ h, (f h, h).

Definition index_entries (l : list val) : list (string * val) :=
  imap (λ i x, (pretty i, x)) l.

Definition chars (s : string) : list val :=
  (λ c, VStr (String c EmptyString)) <$> list_ascii_of_string s.

Definition entries (h : heap) (v : val) : list (string * val) :=
  match v with
  | VRef l =>
      match h !! l with
      | Some (CObj props) => props
      | Some (CArr elems) => index_entries elems
      | None => []
      end
  | VStr s => index_entries (chars s)
  | _ => []
  end.

Definition Object_keys (h : heap) (v : val) : result (list string) :=
  match v with
  | VUndefined | VNull => Throw TypeError
  | _ => Return (entries h v).*1
  end.

Definition values (h : heap) (v : val) : list val := (entries h v).*2.
Definition toPairs (h : heap) (v : val) : list (string * val) := entries h v.

Definition isObject (v : val) : bool :=
  match v with VRef _ => true | _ => false end.

Definition is_one (v : val) : bool :=
  match v with VNum 1 => true | _ => false end.

Fixpoint lookup_prop (k : string) (o : list (string * val)) : val :=
  match o with
  | [] => VUndefined
  | (k', v) :: o' => if String.eqb k' k then v else lookup_prop k o'
  end.

(** [v[i]] *)
Definition get_index (h : heap) (v : val) (i : nat) : result val :=
  match v with
  | VUndefined | VNull => Throw TypeError
  | _ => Return (lookup_prop (pretty i) (entries h v))
  end.

(** [v.k] for [$group] and [_id] *)
Definition get_field (h : heap) (v : val) (k : string) : result val :=
  match v with
  | VUndefined | VNull => Throw TypeError
  | VRef l =>
      match h !! l with
      | Some (CObj props) => Return (lookup_prop k props)
      | _ => Return VUndefined
      end
  | _ => Return VUndefined
  end.

(** [delete v.k] updates the object in place. *)
Definition js_delete (v : val) (k : string) : js unit := λ h,
  match v with
  | VUndefined | VNull => (Throw TypeError, h)
  | VRef l =>
      match h !! l with
      | Some (CObj props) =>
          (Return (), <[l := CObj (filter (λ p, p.1 ≠ k) props)]> h)
      | _ => (Return (), h)
      end
  | _ => (Return (), h)
  end.

Definition defined (j : value) : bool :=
  match j with JUndefined => false | _ => true end.

(** [JSON.stringify(v)]: the text, as the tree it denotes.  The recursion
    follows references; [None] when it does not end within [n] levels. *)
Fixpoint stringify (n : nat) (h : heap) (v : val) : option value :=
  match v with
  | VUndefined => Some JUndefined
  | VNull => Some JNull
  | VBool b => Some (JBool b)
  | VNum z => Some (JNum z)
  | VStr s => Some (JStr s)
  | VRef l =>
      match n with
      | O => None
      | S n' =>
          match h !! l with
          | Some (CArr elems) =>
              JArr <$> mapM (λ x, j ← stringify n' h x;
                                  Some (match j with
                                        | JUndefined => JNull
                                        | _ => j
                                        end)) elems
          | Some (CObj props) =>
              ps ← mapM (λ p, j ← stringify n' h p.2; Some (p.1, j)) props;
              Some (JObj (filter (λ p, defined p.2 = true) ps))
          | None => None
          end
      end
  end.

(** A chain of distinct objects is no longer than the store, so a
    serialization that needs more levels has met a cycle, on which
    [JSON.stringify] throws. *)
Definition JSON_stringify (v : val) : js value :=
  read (λ h, match stringify (S (length h)) h v with
             | Some j => Return j
             | None => Throw TypeError
             end).

Definition parse_list (parse : value → heap → val * heap) :=
  fix go (l : list value) (h : heap) : list val * heap :=
    match l with
    | [] => ([], h)
    | x :: l' =>
        let '(v, h1) := parse x h in
        let '(vs, h2) := go l' h1 in
        (v :: vs, h2)
    end.

Definition parse_props (parse : value → heap → val * heap) :=
  fix go (o : object) (h : heap) : list (string * val) * heap :=
    match o with
    | [] => ([], h)
    | (k, x) :: o' =>
        let '(v, h1) := parse x h in
        let '(ps, h2) := go o' h1 in
        ((k, v) :: ps, h2)
    end.

(** Building the objects a text denotes; each array and object is new. *)
Fixpoint alloc_tree (j : value) (h : heap) : val * heap :=
  match j with
  | JUndefined => (VUndefined, h)
  | JNull => (VNull, h)
  | JBool b => (VBool b, h)
  | JNum z => (VNum z, h)
  | JStr s => (VStr s, h)
  | JArr l =>
      let '(vs, h') := parse_list alloc_tree l h in
      (VRef (length h'), h' ++ [CArr vs])
  | JObj o =>
      let '(ps, h') := parse_props alloc_tree o h in
      (VRef (length h'), h' ++ [CObj ps])
  end.

(** [JSON.parse(text)]; the text [undefined] is not JSON. *)
Definition JSON_parse (text : value) : js val := λ h,
  match text with
  | JUndefined => (Throw SyntaxError, h)
  | _ => let '(v, h') := alloc_tree text h in (Return v, h')
  end.

Definition valid_accumulator (h : heap) (val : val) : result bool :=
  keys ← Object_keys h val;
  mret (supported (keys !! 0%nat)).

Definition tuple_of (h : heap) (p : string * val) : result tuple :=
  let '(field, val) := p in
  keys ← Object_keys h val;
  op ← match keys !! 0%nat with
       | Some k => Return (js_slice1 k)
       | None => Throw TypeError
       end;
  let meas := default VUndefined (values h val !! 0%nat) in
  let '(op, meas) :=
    if isObject meas || is_one meas then ("count", VStr "$count")
    else (op, meas) in
  match meas with
  | VStr s => Return (field, op, js_slice1 s)
  | _ => Throw TypeError
  end.

Definition checkCompatibility (ppl : val) : js (list tuple) :=
  op ← read (λ h, stage ← get_index h ppl 0;
                  keys ← Object_keys h stage;
                  mret (keys !! 0%nat));
  if bool_decide (op ≠ Some "$group") then throw (Error msg_not_group)
  else
    (* clone the pipeline *)
    text ← JSON_stringify ppl;
    ppl ← JSON_parse text;
    (* extract group stage *)
    group ← read (λ h, stage ← get_index h ppl 0; get_field h stage "$group");
    js_delete group "_id";;
    (* check we only have supported aggregate operators *)
    valid ← read (λ h, js_every (valid_accumulator h) (values h group));
    if negb valid then throw (Error msg_unsupported)
    else
      (* construct the tuples for createPipeline *)
      read (λ h, mapM (tuple_of h) (toPairs h group)).

(** A value, or an object, that does not refer to the first [n] objects of
    the store. *)
Definition fresh_val (n : nat) (v : val) : Prop :=
  match v with
  | VRef l => n ≤ l
  | _ => True
  end.

Definition fresh_cell (n : nat) (c : cell) : Prop :=
  match c with
  | CArr elems => Forall (fresh_val n) elems
  | CObj props => Forall (λ p, fresh_val n p.2) props
  end.

(** [below loc w]: a reference [w] is to an object older than [loc]. *)
Definition below (loc : nat) (w : val) : Prop :=
  match w with
  | VRef l => l < loc
  | _ => True
  end.

(** [repr h j v]: in the store [h] the value [v] is the tree [j].  The
    objects of a tree may be shared but each is older than the objects that
    refer to it, as for data that was built bottom-up and never updated to
    point to itself. *)
Fixpoint repr (h : heap) (j : value) (v : val) {struct j} : Prop :=
  match j with
  | JUndefined => v = VUndefined
  | JNull => v = VNull
  | JBool b => v = VBool b
  | JNum z => v = VNum z
  | JStr s => v = VStr s
  | JArr l =>
      ∃ loc vs, v = VRef loc ∧ h !! loc = Some (CArr vs) ∧
        (fix go (l : list value) (vs : list val) : Prop :=
           match l, vs with
           | [], [] => True
           | x :: l', w :: vs' => (repr h x w ∧ below loc w) ∧ go l' vs'
           | _, _ => False
           end) l vs
  | JObj o =>
      ∃ loc ps, v = VRef loc ∧ h !! loc = Some (CObj ps) ∧
        (fix go (o : object) (ps : list (string * val)) : Prop :=
           match o, ps with
           | [], [] => True
           | (k, x) :: o', (k', w) :: ps' =>
               (k = k' ∧ repr h x w ∧ below loc w) ∧ go o' ps'
           | _, _ => False
           end) o ps
  end.

Definition repr_elems (h : heap) (loc : nat) : list value → list val → Prop :=
  Forall2 (λ x w, repr h x w ∧ below loc w).

Definition repr_props (h : heap) (loc : nat)
  : object → list (string * val) → Prop :=
  Forall2 (λ p q, p.1 = q.1 ∧ repr h p.2 q.2 ∧ below loc q.2).

End Heap.

(** What [checkCompatibility] looks at in an operand: its kind, and its
    value when it is a primitive. *)
Definition shallow (j : value) (v : Heap.val) : Prop :=
  match j, v with
  | JUndefined, Heap.VUndefined | JNull, Heap.VNull => True
  | JBool b, Heap.VBool b' => b = b'
  | JNum z, Heap.VNum z' => z = z'
  | JStr s, Heap.VStr s' => s = s'
  | (JArr _ | JObj _), Heap.VRef _ => True
  | _, _ => False
  end.

(** What it looks at in an accumulator: the keys and the first value. *)
Definition same_accumulator (h : Heap.heap) (x : value) (w : Heap.val)
  : Prop :=
  Heap.Object_keys h w = Object_keys x
  ∧ shallow (js_nth (values x) 0)
            (default Heap.VUndefined (Heap.values h w !! 0%nat)).


(** * Properties *)

(** ** Induction on values *)

(** Structural induction that reaches below arrays and objects. *)
Lemma value_rect' (P : value → Type)
    (Q : list value → Type) (R : object → Type)
    (Hundef : P JUndefined) (Hnull : P JNull)
    (Hbool : ∀ b, P (JBool b)) (Hnum : ∀ n, P (JNum n))
    (Hstr : ∀ s, P (JStr s))
    (Harr : ∀ l, Q l → P (JArr l))
    (Hobj : ∀ o, R o → P (JObj o))
    (Qnil : Q []) (Qcons : ∀ v l, P v → Q l → Q (v :: l))
    (Rnil : R []) (Rcons : ∀ k v o, P v → R o → R ((k, v) :: o)) :
  ∀ v, P v.
Proof.
  fix IH 1. intros [ | | b | n | s | l | o ].
  - exact Hundef.
  - exact Hnull.
  - apply Hbool.
  - apply Hnum.
  - apply Hstr.
  - apply Harr. induction l as [|v l IHl]; [exact Qnil|].
    apply Qcons; [apply IH | exact IHl].
  - apply Hobj. induction o as [|[k v] o IHo]; [exact Rnil|].
    apply Rcons; [apply IH | exact IHo].
Defined.

(** ** The examples of the README *)

Example checkCompatibility_p1 :
  checkCompatibility p1 = Return [("count", "count", "count")].
Proof. reflexivity. Qed.

Example queryCube_p1 :
  queryCube p1 =
  Return [ JObj [("$group", JObj [("_id", JNull);
                                  ("count", JObj [("$sum", JStr "$count")])])];
           JObj [("$project", JObj [("_id", JNum 1);
                                    ("count", JStr "$count")])] ].
Proof. reflexivity. Qed.

Example checkCompatibility_p2 :
  checkCompatibility p2 = Return [("avg_weight", "avg", "Unladen Weight")].
Proof. reflexivity. Qed.

Example createCube_dmv :
  createCube ["State"; "Color"; "Suspension Indicator"; "Model Year"]
             ["Unladen Weight"] (JStr "dmv.cube") =
  [ JObj [("$group",
      JObj [("_id", JObj [("State", JStr "$State");
                          ("Color", JStr "$Color");
                          ("Suspension Indicator", JStr "$Suspension Indicator");
                          ("Model Year", JStr "$Model Year")]);
            ("count", JObj [("$sum", JNum 1)]);
            ("Unladen Weight_sum", JObj [("$sum", JStr "$Unladen Weight")]);
            ("Unladen Weight_min", JObj [("$min", JStr "$Unladen Weight")]);
            ("Unladen Weight_max", JObj [("$max", JStr "$Unladen Weight")]);
            ("Unladen Weight_count",
               JObj [("$sum",
                 JObj [("$cond", JObj [("if", JStr "$Unladen Weight");
                                       ("then", JNum 1);
                                       ("else", JNum 0)])])])])];
    JObj [("$project",
      JObj [("_id", JNum 0);
            ("count", JNum 1);
            ("Unladen Weight",
               JObj [("sum", JStr "$Unladen Weight_sum");
                     ("min", JStr "$Unladen Weight_min");
                     ("max", JStr "$Unladen Weight_max");
                     ("count", JStr "$Unladen Weight_count")]);
            ("State", JStr "$_id.State");
            ("Color", JStr "$_id.Color");
            ("Suspension Indicator", JStr "$_id.Suspension Indicator");
            ("Model Year", JStr "$_id.Model Year")])];
    JObj [("$out", JStr "dmv.cube")] ].
Proof. reflexivity. Qed.

(** ** The rewrite of the top-3 average query *)

(** C3: on the README's pipeline [p2] (group by Model Year, average of
    Unladen Weight, sort, limit 3) [queryCube] keeps the projection and the
    trailing sort and limit stages as documented, but its grouping stage sums
    the cube's top-level [count] instead of computing "Unladen Weight_count"
    from the measure's nested field, and its [$set] stage is a bare
    [$divide]; the result is not the pipeline the README documents. *)
Theorem queryCube_p2_differs_from_readme :
  queryCube p2 =
    Return
      [ JObj [("$group",
               JObj [("_id", JStr "$Model Year");
                     ("Unladen Weight_sum",
                        JObj [("$sum", JStr "$Unladen Weight.sum")]);
                     ("count", JObj [("$sum", JStr "$count")])])];
        JObj [("$set",
               JObj [("Unladen Weight_avg", naive_divide "Unladen Weight")])];
        JObj [("$project",
               JObj [("_id", JNum 1);
                     ("avg_weight", JStr "$Unladen Weight_avg")])];
        JObj [("$sort", JObj [("avg_weight", JNum (-1))])];
        JObj [("$limit", JNum 3)] ]
  ∧ queryCube p2 ≠ Return readme_rewritten_p2.
Proof. split; [reflexivity | discriminate]. Qed.

(** ** Encoding of dimension names *)

(** C4: for the dimension "a.b.c" the grouping key written by [createCube]
    is "a_b.c" (only the first dot is replaced), and the projection reads
    "$_id.a_b.c"; with every dot replaced the key would be "a_b_c". *)
Theorem createCube_replaces_first_dot_only :
  cube_group ["a.b.c"] ["m"] !! 0%nat =
    Some ("_id", JObj [("a_b.c", JStr "$a.b.c")])
  ∧ obj_get "a.b.c" (cube_project ["a.b.c"] ["m"]) = JStr "$_id.a_b.c"
  ∧ dashedDimensions ["a.b.c"] = ["a_b.c"]
  ∧ map (replace_all "." "_") ["a.b.c"] = ["a_b_c"].
Proof. repeat split; reflexivity. Qed.

(** ** Which exceptions [checkCompatibility] raises *)

Lemma only_TypeError_bind {A B} (m : result A) (f : A → result B) :
  only_TypeError m → (∀ a, only_TypeError (f a)) → only_TypeError (m ≫= f).
Proof.
  intros Hm Hf e. destruct m as [a|e']; simpl.
  - apply Hf.
  - intros [= <-]. by apply Hm.
Qed.

Lemma only_TypeError_Return {A} (a : A) : only_TypeError (Return a).
Proof. intros e. discriminate. Qed.

Lemma only_TypeError_Throw {A} : only_TypeError (@Throw A TypeError).
Proof. intros e. by intros [= <-]. Qed.

Lemma Object_keys_only_TypeError v : only_TypeError (Object_keys v).
Proof. destruct v; first [apply only_TypeError_Throw | apply only_TypeError_Return]. Qed.

Lemma get_field_only_TypeError v k : only_TypeError (get_field v k).
Proof. destruct v; first [apply only_TypeError_Throw | apply only_TypeError_Return]. Qed.

Lemma js_delete_only_TypeError v k : only_TypeError (js_delete v k).
Proof. destruct v; first [apply only_TypeError_Throw | apply only_TypeError_Return]. Qed.

Lemma valid_accumulator_only_TypeError v : only_TypeError (valid_accumulator v).
Proof.
  apply only_TypeError_bind; [apply Object_keys_only_TypeError|].
  intros keys. apply only_TypeError_Return.
Qed.

Lemma js_every_only_TypeError {A} (f : A → result bool) l :
  (∀ x, only_TypeError (f x)) → only_TypeError (js_every f l).
Proof.
  intros Hf. induction l as [|x l IH]; simpl; [apply only_TypeError_Return|].
  apply only_TypeError_bind; [apply Hf|].
  intros [|]; [apply IH | apply only_TypeError_Return].
Qed.

Lemma tuple_of_only_TypeError p : only_TypeError (tuple_of p).
Proof.
  destruct p as [field val]. unfold tuple_of.
  apply only_TypeError_bind; [apply Object_keys_only_TypeError|]. intros keys.
  apply only_TypeError_bind.
  { destruct (keys !! 0%nat);
      [apply only_TypeError_Return | apply only_TypeError_Throw]. }
  intros op. destruct (isObject _ || is_one _); simpl.
  - apply only_TypeError_Return.
  - destruct (js_nth _ _);
      first [apply only_TypeError_Throw | apply only_TypeError_Return].
Qed.

Lemma mapM_only_TypeError {A B} (f : A → result B) l :
  (∀ x, only_TypeError (f x)) → only_TypeError (mapM f l).
Proof.
  intros Hf. induction l as [|x l IH]; simpl; [apply only_TypeError_Return|].
  apply only_TypeError_bind; [apply Hf|]. intros y.
  apply only_TypeError_bind; [apply IH|]. intros k.
  apply only_TypeError_Return.
Qed.

Lemma checkCompatibility_group props more rest :
  checkCompatibility (JObj (("$group", JObj props) :: more) :: rest) =
  scan (JObj (group_fields props)).
Proof. reflexivity. Qed.

Lemma scan_throws group e :
  scan group = Throw e → e = TypeError ∨ e = Error msg_unsupported.
Proof.
  unfold scan. intros H.
  destruct (js_every valid_accumulator (values group)) as [valid|e'] eqn:Hv.
  - simpl in H. destruct valid; simpl in H.
    + left. eapply mapM_only_TypeError; [|exact H]. apply tuple_of_only_TypeError.
    + right. congruence.
  - simpl in H. left. injection H as <-.
    eapply js_every_only_TypeError; [|exact Hv].
    apply valid_accumulator_only_TypeError.
Qed.

(** X1 (query_cube.js, [checkCompatibility]): the first check is the only
    place that raises the "must start with $group" error: it is raised
    exactly when the first stage exists, is not [null], and its first key is
    not [$group]. *)
Lemma checkCompatibility_not_group_iff ppl :
  checkCompatibility ppl = Throw (Error msg_not_group) ↔
  ∃ keys, Object_keys (js_nth ppl 0) = Return keys
          ∧ keys !! 0%nat ≠ Some "$group".
Proof.
  unfold checkCompatibility.
  destruct (Object_keys (js_nth ppl 0)) as [keys|e] eqn:Hk; simpl.
  - case_bool_decide as Hne.
    + split; [eauto|done].
    + split.
      * intros H. exfalso.
        destruct (get_field _ _) as [g|e] eqn:Hg; simpl in H.
        2:{ injection H as ->. by apply get_field_only_TypeError in Hg. }
        destruct (js_delete g "_id") as [g'|e] eqn:Hd; simpl in H.
        2:{ injection H as ->. by apply js_delete_only_TypeError in Hd. }
        apply scan_throws in H as [H|H]; discriminate.
      * intros (keys' & [= <-] & Hne'). done.
  - split.
    + intros [= ->]. by apply Object_keys_only_TypeError in Hk.
    + intros (keys' & [=] & _).
Qed.

(** C7: on the empty pipeline, where the first stage is absent,
    [checkCompatibility] does not raise the "must start with $group" error:
    [Object.keys(undefined)] raises a [TypeError] before the comparison. *)
Theorem checkCompatibility_empty_pipeline :
  checkCompatibility [] = Throw TypeError
  ∧ checkCompatibility [] ≠ Throw (Error msg_not_group).
Proof. split; [reflexivity | discriminate]. Qed.

(** A first stage of another kind is rejected with that error. *)
Lemma checkCompatibility_not_group k body more rest :
  k ≠ "$group" →
  checkCompatibility (JObj ((k, body) :: more) :: rest) =
  Throw (Error msg_not_group).
Proof.
  intros Hk. unfold checkCompatibility.
  change (Object_keys (js_nth (JObj ((k, body) :: more) :: rest) 0))
    with (Return (k :: more.*1)).
  cbn [mbind result_bind]. rewrite bool_decide_eq_true_2; [done|].
  simpl. congruence.
Qed.

(** ** Supported operators *)

Lemma json_clone_defined x : x ≠ JUndefined → json_clone x ≠ JUndefined.
Proof. by destruct x. Qed.

Lemma clone_props_cons k x o :
  clone_props ((k, x) :: o) =
  match x with
  | JUndefined => clone_props o
  | _ => (k, json_clone x) :: clone_props o
  end.
Proof. reflexivity. Qed.





Lemma valid_accumulator_defined v :
  v ≠ JUndefined → v ≠ JNull →
  valid_accumulator v = Return (supported (operator_key v)).
Proof. by destruct v. Qed.

Lemma js_every_valid_accumulator (o : object) :
  Forall (λ p, p.2 ≠ JUndefined) o → Forall (λ p, p.2 ≠ JNull) o →
  js_every valid_accumulator o.*2 =
  Return (forallb (λ p, supported (operator_key p.2)) o).
Proof.
  induction o as [|[k v] o IH]; [done|].
  intros [Hu Hus]%Forall_cons [Hn Hns]%Forall_cons. simpl in *.
  rewrite valid_accumulator_defined by done. simpl.
  destruct (supported (operator_key v)); [by apply IH | done].
Qed.





(** ** Accumulators with several keys *)






(** The two-operator accumulator above is accepted, as a [sum]. *)
Example checkCompatibility_two_operators :
  checkCompatibility
    [JObj [("$group", JObj [("_id", JNull);
                            ("n", JObj [("$sum", JStr "$a");
                                        ("$first", JStr "$b")])])]]
  = Return [("n", "sum", "a")].
Proof. reflexivity. Qed.

(** ** Operands *)

Lemma supported_operator_inv val :
  supported (operator_key val) = true →
  ∃ k x o, val = JObj ((k, x) :: o).
Proof.
  destruct val as [ | | b | n | s | l | o ]; try discriminate.
  - destruct s; [discriminate|]. vm_compute. discriminate.
  - destruct l; [discriminate|]. vm_compute. discriminate.
  - destruct o as [|[k x] o]; [discriminate|]. eauto.
Qed.

Lemma tuple_of_accepted p :
  supported (operator_key p.2) = true →
  rejected_operand (operand p.2) = false →
  tuple_of p = Return (expected_tuple p).
Proof.
  destruct p as [f val]. simpl.
  intros (k & x & o & ->)%supported_operator_inv.
  unfold rejected_operand, is_count_pattern, expected_tuple, operand, tuple_of.
  simpl. change (js_nth (x :: o.*2) 0) with x.
  destruct x as [ | | b | n | s | l | o' ]; try discriminate; try done.
  destruct n as [|[]|]; try discriminate; done.
Qed.

Lemma tuple_of_rejected p :
  supported (operator_key p.2) = true →
  rejected_operand (operand p.2) = true →
  tuple_of p = Throw TypeError.
Proof.
  destruct p as [f val]. simpl.
  intros (k & x & o & ->)%supported_operator_inv.
  unfold rejected_operand, is_count_pattern, operand, tuple_of.
  simpl. change (js_nth (x :: o.*2) 0) with x.
  destruct x as [ | | b | n | s | l | o' ]; try discriminate; try done.
  destruct n as [|[]|]; try discriminate; done.
Qed.

Lemma mapM_Return_Forall {A B} (f : A → result B) (g : A → B) l :
  Forall (λ x, f x = Return (g x)) l → mapM f l = Return (map g l).
Proof.
  induction 1 as [|x l Hx _ IH]; [done|]. simpl. by rewrite Hx, IH.
Qed.

Lemma mapM_Throw_Exists {A B} (f : A → result B) l :
  (∀ x, only_TypeError (f x)) →
  Exists (λ x, f x = Throw TypeError) l → mapM f l = Throw TypeError.
Proof.
  intros Hf. induction 1 as [x l Hx|x l _ IH]; simpl.
  - by rewrite Hx.
  - destruct (f x) as [y|e] eqn:Hy; simpl.
    + by rewrite IH.
    + by apply Hf in Hy as ->.
Qed.

Lemma scan_supported (o : object) :
  Forall (λ p, supported (operator_key p.2) = true) o →
  scan (JObj o) = mapM tuple_of o.
Proof.
  intros Hs. unfold scan.
  change (toPairs (JObj o)) with o. change (values (JObj o)) with o.*2.
  rewrite js_every_valid_accumulator.
  - assert (forallb (λ p, supported (operator_key p.2)) o = true) as ->; [|done].
    apply forallb_forall. intros p Hp%list_elem_of_In.
    by eapply Forall_forall in Hs.
  - eapply Forall_impl; [exact Hs|]. simpl.
    by intros p (k & x & o' & ->)%supported_operator_inv.
  - eapply Forall_impl; [exact Hs|]. simpl.
    by intros p (k & x & o' & ->)%supported_operator_inv.
Qed.

(** C5, as the code has it: in a grouping stage whose operators are all
    supported, an accumulator whose operand is [null], a boolean or a number
    other than 1 makes [checkCompatibility] fail with the runtime's
    [TypeError]; when no operand is of that kind the call returns one tuple
    per field, and a string operand gives its text without the first
    character as the measure, whether or not that character is the dollar
    sign. *)
Theorem checkCompatibility_operands props more rest :
  Forall (λ p, supported (operator_key p.2) = true) (group_fields props) →
  (Exists (λ p, rejected_operand (operand p.2) = true) (group_fields props) →
   checkCompatibility (JObj (("$group", JObj props) :: more) :: rest)
     = Throw TypeError)
  ∧ (Forall (λ p, rejected_operand (operand p.2) = false) (group_fields props) →
     checkCompatibility (JObj (("$group", JObj props) :: more) :: rest)
       = Return (map expected_tuple (group_fields props))).
Proof.
  intros Hs. rewrite checkCompatibility_group, scan_supported by done.
  split.
  - intros Hex. apply mapM_Throw_Exists; [apply tuple_of_only_TypeError|].
    apply Exists_exists in Hex as (p & Hin & Hp). apply Exists_exists.
    exists p. split; [done|]. apply tuple_of_rejected; [|done].
    by eapply Forall_forall in Hs.
  - intros Hall. apply mapM_Return_Forall.
    apply Forall_forall. intros p Hin. apply tuple_of_accepted.
    + by eapply Forall_forall in Hs.
    + by eapply Forall_forall in Hall.
Qed.

Lemma checkCompatibility_operands_witness :
  (Exists (λ p, rejected_operand (operand p.2) = true)
     (group_fields [("_id", JNull); ("x", JObj [("$sum", JNum 2)])]) →
   checkCompatibility
     [JObj [("$group", JObj [("_id", JNull); ("x", JObj [("$sum", JNum 2)])])]]
     = Throw TypeError)
  ∧ (Forall (λ p, rejected_operand (operand p.2) = false)
       (group_fields [("_id", JNull); ("x", JObj [("$sum", JNum 2)])]) →
     checkCompatibility
       [JObj [("$group", JObj [("_id", JNull); ("x", JObj [("$sum", JNum 2)])])]]
       = Return (map expected_tuple
                   (group_fields [("_id", JNull);
                                  ("x", JObj [("$sum", JNum 2)])]))).
Proof.
  apply (checkCompatibility_operands
           [("_id", JNull); ("x", JObj [("$sum", JNum 2)])] [] []).
  repeat constructor.
Defined.

(** C5 as stated fails: the operand "abc" of a supported operator is neither
    a field reference nor a count pattern, and the pipeline is accepted. *)
Lemma checkCompatibility_accepts_plain_string :
  supported (operator_key (JObj [("$sum", JStr "abc")])) = true
  ∧ is_field_reference (operand (JObj [("$sum", JStr "abc")])) = false
  ∧ is_count_pattern (operand (JObj [("$sum", JStr "abc")])) = false
  ∧ checkCompatibility
      [JObj [("$group", JObj [("_id", JNull);
                              ("x", JObj [("$sum", JStr "abc")])])]]
    = Return [("x", "sum", "bc")].
Proof. repeat split; reflexivity. Qed.

(** ** Objects as ordered association lists *)

Lemma has_key_elem k (o : object) : has_key k o = true ↔ k ∈ o.*1.
Proof.
  unfold has_key. induction o as [|[k' v] o IH]; simpl.
  - split; [done | by intros ?%elem_of_nil].
  - rewrite orb_true_iff, IH, elem_of_cons, String.eqb_eq.
    split; (intros [Hk|Hk]; [left; by symmetry | by right]).
Qed.

Lemma has_key_false k (o : object) : has_key k o = false ↔ k ∉ o.*1.
Proof. rewrite <- has_key_elem. by destruct (has_key k o). Qed.

Lemma obj_update_keys k v (o : object) : (obj_update k v o).*1 = o.*1.
Proof.
  induction o as [|[k' v'] o IH]; [done|]. cbn [obj_update].
  destruct (String.eqb k' k) eqn:E; rewrite !fmap_cons.
  - by apply String.eqb_eq in E as ->.
  - by rewrite IH.
Qed.

Lemma obj_update_elem p k v (o : object) :
  p ∈ obj_update k v o → p = (k, v) ∨ p ∈ o.
Proof.
  induction o as [|[k' v'] o IH]; [auto|]. simpl.
  destruct (String.eqb k' k); rewrite !elem_of_cons; intros [->|H]; auto.
  apply IH in H as [->|H]; auto.
Qed.

Lemma obj_insert_index_perm n k v (o : object) :
  obj_insert_index n k v o ≡ₚ (k, v) :: o.
Proof.
  induction o as [|[k' v'] o IH]; simpl; [done|].
  destruct (array_index k') as [n'|]; [|done].
  destruct (n' <? n)%N; [|done].
  rewrite IH. apply perm_swap.
Qed.

Lemma obj_define_new k v (o : object) :
  k ∉ o.*1 → obj_define k v o ≡ₚ (k, v) :: o.
Proof.
  intros Hk%has_key_false. unfold obj_define. rewrite Hk.
  destruct (array_index k).
  - apply obj_insert_index_perm.
  - by rewrite Permutation_app_comm.
Qed.

Lemma obj_define_old k v (o : object) :
  k ∈ o.*1 → (obj_define k v o).*1 = o.*1.
Proof.
  intros Hk%has_key_elem. unfold obj_define. rewrite Hk.
  apply obj_update_keys.
Qed.

Lemma obj_define_elem p k v (o : object) :
  p ∈ obj_define k v o → p = (k, v) ∨ p ∈ o.
Proof.
  destruct (decide (k ∈ o.*1)) as [Hk|Hk].
  - unfold obj_define. apply has_key_elem in Hk as ->. apply obj_update_elem.
  - rewrite (obj_define_new k v o Hk), elem_of_cons. tauto.
Qed.

Lemma obj_define_keys k' k v (o : object) :
  k' ∈ (obj_define k v o).*1 ↔ k' = k ∨ k' ∈ o.*1.
Proof.
  destruct (decide (k ∈ o.*1)) as [Hk|Hk].
  - rewrite obj_define_old by done.
    split; [by right | by intros [->|?]].
  - rewrite (obj_define_new k v o Hk). rewrite fmap_cons. apply elem_of_cons.
Qed.

Lemma obj_assign_elem p k v (o : object) :
  p ∈ obj_assign k v o → p = (k, v) ∨ p ∈ o.
Proof.
  unfold obj_assign. destruct (String.eqb k "__proto__"); [auto|].
  apply obj_define_elem.
Qed.

Lemma obj_assign_keys_mono k' k v (o : object) :
  k' ∈ o.*1 → k' ∈ (obj_assign k v o).*1.
Proof.
  unfold obj_assign. destruct (String.eqb k "__proto__"); [done|].
  rewrite obj_define_keys. auto.
Qed.

Lemma obj_get_elem k (o : object) : k ∈ o.*1 → (k, obj_get k o) ∈ o.
Proof.
  induction o as [|[k' v] o IH]; simpl.
  - by intros ?%elem_of_nil.
  - destruct (String.eqb k' k) eqn:E.
    + apply String.eqb_eq in E as ->. intros _. apply list_elem_of_here.
    + apply String.eqb_neq in E. rewrite elem_of_cons.
      intros [->|Hk]; [done|]. apply list_elem_of_further, IH, Hk.
Qed.

Lemma obj_get_define_ne k k' v (o : object) :
  k ≠ k' → obj_get k (obj_define k' v o) = obj_get k o.
Proof.
  intros Hne. unfold obj_define.
  destruct (has_key k' o).
  - induction o as [|[k1 v1] o IH]; [done|]. simpl.
    destruct (String.eqb k1 k') eqn:E1; simpl.
    + apply String.eqb_eq in E1 as ->.
      by assert (String.eqb k' k = false) as -> by (apply String.eqb_neq; done).
    + by rewrite IH.
  - assert (Hk : String.eqb k' k = false) by (apply String.eqb_neq; done).
    destruct (array_index k') as [n|].
    + induction o as [|[k1 v1] o IH]; simpl; [by rewrite Hk|].
      destruct (array_index k1) as [n1|]; [|simpl; by rewrite Hk].
      destruct (n1 <? n)%N; simpl; [by rewrite IH | by rewrite Hk].
    + induction o as [|[k1 v1] o IH]; simpl; [by rewrite Hk|].
      by rewrite IH.
Qed.

(** ** Strings with a suffix *)

Lemma string_app_cons a (s1 s2 : string) :
  String a s1 +:+ s2 = String a (s1 +:+ s2).
Proof. reflexivity. Qed.

Lemma string_app_nil (s : string) : "" +:+ s = s.
Proof. reflexivity. Qed.

Lemma string_length_app (s1 s2 : string) :
  String.length (s1 +:+ s2) = (String.length s1 + String.length s2)%nat.
Proof.
  induction s1 as [|a s1 IH]; [done|].
  rewrite string_app_cons. simpl. by rewrite IH.
Qed.

Lemma string_app_assoc (s1 s2 s3 : string) :
  (s1 +:+ s2) +:+ s3 = s1 +:+ (s2 +:+ s3).
Proof.
  induction s1 as [|a s1 IH]; [done|].
  rewrite !string_app_cons. by rewrite IH.
Qed.

Lemma app_suffix_inj (m1 m2 s1 s2 : string) :
  String.length s1 = String.length s2 →
  m1 +:+ s1 = m2 +:+ s2 → m1 = m2 ∧ s1 = s2.
Proof.
  intros Hlen. revert m2.
  induction m1 as [|a m1 IH]; intros [|b m2];
    rewrite ?string_app_cons, ?string_app_nil; intros H.
  - done.
  - rewrite H in Hlen. simpl in Hlen. rewrite string_length_app in Hlen. lia.
  - rewrite <- H in Hlen. simpl in Hlen. rewrite string_length_app in Hlen. lia.
  - injection H as -> H. apply IH in H as [-> ->]. done.
Qed.

Lemma avg_key_inj m1 m2 : m1 +:+ "_avg" = m2 +:+ "_avg" → m1 = m2.
Proof. intros H. by apply app_suffix_inj in H as [-> _]. Qed.

Lemma avg_key_not_proto m : String.eqb (m +:+ "_avg") "__proto__" = false.
Proof.
  apply String.eqb_neq. intros H.
  change "__proto__" with ("__pro" +:+ "to__") in H.
  by apply app_suffix_inj in H as [_ [=]].
Qed.

(** ** The deferred average *)

Lemma measSet_add_tuple b f a m :
  measSet (add_tuple b (f, a, m)) =
  if String.eqb a "count" then measSet b
  else if String.eqb a "avg"
       then obj_assign (m +:+ "_avg") (naive_divide m) (measSet b)
       else measSet b.
Proof.
  unfold add_tuple.
  destruct (String.eqb a "count"); [done|]. by destruct (String.eqb a "avg").
Qed.

Lemma measSet_naive tuples b :
  Forall naive_entry (measSet b) →
  Forall naive_entry (measSet (fold_left add_tuple tuples b)).
Proof.
  revert b. induction tuples as [|[[f a] m] tuples IH]; intros b Hb; [done|].
  cbn [fold_left]. apply IH. rewrite measSet_add_tuple.
  destruct (String.eqb a "count"); [done|].
  destruct (String.eqb a "avg"); [|done].
  apply Forall_forall. intros p [->|Hp]%obj_assign_elem.
  - by exists m.
  - by eapply Forall_forall in Hb.
Qed.

Lemma measSet_keys_mono tuples b k :
  k ∈ (measSet b).*1 → k ∈ (measSet (fold_left add_tuple tuples b)).*1.
Proof.
  revert b. induction tuples as [|[[f a] m] tuples IH]; intros b Hb; [done|].
  cbn [fold_left]. apply IH. rewrite measSet_add_tuple.
  destruct (String.eqb a "count"); [done|].
  destruct (String.eqb a "avg"); [|done].
  by apply obj_assign_keys_mono.
Qed.

Lemma measSet_avg_key tuples b f m :
  (f, "avg", m) ∈ tuples →
  m +:+ "_avg" ∈ (measSet (fold_left add_tuple tuples b)).*1.
Proof.
  revert b. induction tuples as [|t tuples IH]; intros b Hin.
  - by apply elem_of_nil in Hin.
  - apply elem_of_cons in Hin as [<-|Hin]; [|by apply IH].
    cbn [fold_left]. apply measSet_keys_mono. rewrite measSet_add_tuple.
    cbn [String.eqb Ascii.eqb Bool.eqb].
    unfold obj_assign. rewrite avg_key_not_proto.
    apply obj_define_keys. by left.
Qed.

Lemma naive_divide_not_safe m num den : naive_divide m ≠ safe_divide num den.
Proof. discriminate. Qed.

(** C2: for every [avg] tuple [(f, avg, m)] the [$set] stage written by
    [createPipeline] holds, under the key [m_avg], the bare expression
    [{ $divide: ["$m_sum", "$count"] }]; it is not the guarded division
    [{ $cond: { if: { $eq: [den, 0] }, then: null, else: ... } }] that the
    README prints. *)
Theorem createPipeline_avg_is_bare_divide ppl tuples f m out :
  (f, "avg", m) ∈ tuples →
  createPipeline ppl tuples = Return out →
  ∃ set, out !! 1%nat = Some (JObj [("$set", JObj set)])
         ∧ obj_get (m +:+ "_avg") set = naive_divide m
         ∧ ∀ num den, obj_get (m +:+ "_avg") set ≠ safe_divide num den.
Proof.
  intros Hin. unfold createPipeline.
  set (b := fold_left add_tuple tuples _).
  destruct (get_field (js_nth ppl 0) "$group") as [oldGroup|]; [|done].
  simpl. destruct (get_field oldGroup "_id") as [_id|]; [|done].
  simpl. intros [= <-].
  assert (Hkey : m +:+ "_avg" ∈ (measSet b).*1) by by eapply measSet_avg_key.
  assert (Hget : obj_get (m +:+ "_avg") (measSet b) = naive_divide m).
  { apply obj_get_elem in Hkey.
    assert (Hn : Forall naive_entry (measSet b))
      by (apply measSet_naive; constructor).
    eapply Forall_forall in Hn; [|exact Hkey].
    destruct Hn as [m' Heq]. injection Heq as Hm Hv.
    by apply avg_key_inj in Hm as ->. }
  exists (measSet b). split; [|split; [done|]].
  - destruct (measSet b); [by apply elem_of_nil in Hkey | done].
  - intros num den. rewrite Hget. apply naive_divide_not_safe.
Qed.

Lemma createPipeline_avg_is_bare_divide_witness :
  ∃ set,
    [ JObj [("$group",
             JObj [("_id", JStr "$Model Year");
                   ("Unladen Weight_sum",
                      JObj [("$sum", JStr "$Unladen Weight.sum")]);
                   ("count", JObj [("$sum", JStr "$count")])])];
      JObj [("$set",
             JObj [("Unladen Weight_avg", naive_divide "Unladen Weight")])];
      JObj [("$project",
             JObj [("_id", JNum 1);
                   ("avg_weight", JStr "$Unladen Weight_avg")])];
      JObj [("$sort", JObj [("avg_weight", JNum (-1))])];
      JObj [("$limit", JNum 3)] ] !! 1%nat = Some (JObj [("$set", JObj set)])
    ∧ obj_get ("Unladen Weight" +:+ "_avg") set = naive_divide "Unladen Weight"
    ∧ ∀ num den,
        obj_get ("Unladen Weight" +:+ "_avg") set ≠ safe_divide num den.
Proof.
  apply (createPipeline_avg_is_bare_divide
           p2 [("avg_weight", "avg", "Unladen Weight")]
           "avg_weight" "Unladen Weight").
  - apply list_elem_of_here.
  - reflexivity.
Defined.

(** ** Counting the fields written by [createCube] *)

Lemma obj_spread_perm (a b : object) :
  NoDup (a.*1 ++ b.*1) → obj_spread a b ≡ₚ a ++ b.
Proof.
  unfold obj_spread. revert a.
  induction b as [|[k v] b IH]; intros a Hnd; simpl.
  - by rewrite app_nil_r.
  - rewrite fmap_cons in Hnd. simpl in Hnd.
    assert (Hk : k ∉ a.*1).
    { apply NoDup_app in Hnd as (_ & Hdisj & _). intros Hin.
      apply (Hdisj k Hin), list_elem_of_here. }
    pose proof (obj_define_new k v a Hk) as Hdef.
    rewrite IH.
    + rewrite Hdef. apply Permutation_middle.
    + rewrite Hdef, fmap_cons. simpl.
      by rewrite <- Permutation_middle in Hnd.
Qed.

Lemma fold_spread_perm (g : string → object) ms (acc : object) :
  NoDup (acc.*1 ++ (ms ≫= g).*1) →
  fold_left (λ acc val, obj_spread (obj_spread [] acc) (g val)) ms acc
  ≡ₚ acc ++ (ms ≫= g).
Proof.
  revert acc. induction ms as [|m ms IH]; intros acc Hnd.
  - simpl. by rewrite app_nil_r.
  - rewrite bind_cons in Hnd |- *. rewrite fmap_app, app_assoc in Hnd.
    cbn [fold_left].
    assert (Hacc : obj_spread [] acc ≡ₚ acc).
    { rewrite obj_spread_perm; [done|]. simpl.
      by apply NoDup_app in Hnd as [[? _]%NoDup_app _]. }
    assert (Hstep : obj_spread (obj_spread [] acc) (g m) ≡ₚ acc ++ g m).
    { rewrite obj_spread_perm; [by rewrite Hacc|]. rewrite Hacc.
      by apply NoDup_app in Hnd as [? _]. }
    rewrite IH.
    + by rewrite Hstep, <- app_assoc.
    + by rewrite Hstep, fmap_app.
Qed.

Lemma zip_into_keys props vals (o : object) :
  NoDup (o.*1 ++ props) → (zip_into props vals o).*1 ≡ₚ o.*1 ++ props.
Proof.
  revert vals o. induction props as [|k props IH]; intros vals o Hnd; simpl.
  - by rewrite app_nil_r.
  - assert (Hk : k ∉ o.*1).
    { apply NoDup_app in Hnd as (_ & Hdisj & _). intros Hin.
      apply (Hdisj k Hin), list_elem_of_here. }
    pose proof (obj_define_new k (js_nth vals 0) o Hk) as Hdef.
    rewrite IH.
    + rewrite Hdef, fmap_cons. apply Permutation_middle.
    + rewrite Hdef, fmap_cons. simpl.
      by rewrite <- Permutation_middle in Hnd.
Qed.

Lemma zipObject_length props vals :
  NoDup props → length (zipObject props vals) = length props.
Proof.
  intros Hnd. unfold zipObject.
  rewrite <- (length_fmap fst), zip_into_keys; done.
Qed.

Lemma obj_get_spread_ne k (a b : object) :
  k ∉ b.*1 → obj_get k (obj_spread a b) = obj_get k a.
Proof.
  unfold obj_spread. revert a.
  induction b as [|[k' v] b IH]; intros a Hk; [done|].
  rewrite fmap_cons in Hk. apply not_elem_of_cons in Hk as [Hne Hk].
  cbn [fold_left]. rewrite IH by done. by apply obj_get_define_ne.
Qed.

Lemma filter_all {A} (P : A → Prop) `{∀ x, Decision (P x)} l :
  Forall P l → filter P l = l.
Proof.
  induction 1 as [|x l Hx _ IH]; [done|].
  by rewrite filter_cons_True, IH.
Qed.

Lemma measure_keys_inj m1 m2 k :
  k ∈ measure_keys m1 → k ∈ measure_keys m2 → m1 = m2.
Proof.
  unfold measure_keys. rewrite !elem_of_cons, !elem_of_nil.
  change "_count" with ("_c" +:+ "ount").
  rewrite <- !string_app_assoc.
  intros [->|[->|[->|[->|[]]]]] [H|[H|[H|[H|[]]]]];
    apply app_suffix_inj in H as [H1 H2]; try done; try discriminate H2.
  by apply app_suffix_inj in H1 as [-> _].
Qed.

Lemma measure_keys_NoDup m : NoDup (measure_keys m).
Proof.
  unfold measure_keys.
  repeat (apply NoDup_cons; split;
          [rewrite ?elem_of_cons, elem_of_nil;
           intros H; repeat (destruct H as [H|H]; [by apply (inj _) in H|]);
           done|]).
  apply NoDup_nil_2.
Qed.

Lemma measure_keys_not k m :
  String.length k < 4 ∨ k = "count" → k ∉ measure_keys m.
Proof.
  unfold measure_keys. rewrite !elem_of_cons, elem_of_nil.
  intros Hk [->|[->|[->|[->|[]]]]];
    (destruct Hk as [Hk|Hk];
     [rewrite string_length_app in Hk; simpl in Hk; lia|]).
  - change "count" with ("c" +:+ "ount") in Hk.
    by apply app_suffix_inj in Hk as [_ [=]].
  - change "count" with ("c" +:+ "ount") in Hk.
    by apply app_suffix_inj in Hk as [_ [=]].
  - change "count" with ("c" +:+ "ount") in Hk.
    by apply app_suffix_inj in Hk as [_ [=]].
  - assert (Hl : String.length (m +:+ "_count") = String.length "count")
      by by rewrite Hk.
    rewrite string_length_app in Hl. simpl in Hl. lia.
Qed.

Lemma fmap_bind_list {A B C} (f : B → C) (g : A → list B) (l : list A) :
  f <$> (l ≫= g) = l ≫= (λ x, f <$> g x).
Proof.
  induction l as [|x l IH]; [done|].
  by rewrite !bind_cons, fmap_app, IH.
Qed.

Lemma mapped_keys_NoDup ms :
  NoDup ms → NoDup (ms ≫= mapMeasure).*1.
Proof.
  intros Hnd. rewrite fmap_bind_list.
  apply NoDup_bind; [| |done].
  - intros m1 m2 k _ _. exact (measure_keys_inj m1 m2 k).
  - intros m _. exact (measure_keys_NoDup m).
Qed.

Lemma mapped_keys_not k ms :
  String.length k < 4 ∨ k = "count" → k ∉ (ms ≫= mapMeasure).*1.
Proof.
  intros Hk. rewrite fmap_bind_list.
  intros (m & Hin & _)%list_elem_of_bind.
  by eapply (measure_keys_not k m).
Qed.

Lemma mapMeasure_bind_length ms :
  length (ms ≫= mapMeasure) = 4 * length ms.
Proof.
  induction ms as [|m ms IH]; [done|].
  rewrite bind_cons, length_app, IH. simpl. lia.
Qed.

Lemma nested_keys ms : (ms ≫= nestedMeasure).*1 = ms.
Proof.
  induction ms as [|m ms IH]; [done|].
  rewrite bind_cons, fmap_app, IH. done.
Qed.

Lemma mappedMeasures_perm ms :
  NoDup ms → mappedMeasures ms ≡ₚ ms ≫= mapMeasure.
Proof.
  intros Hnd. unfold mappedMeasures.
  rewrite fold_spread_perm; [done|]. simpl. by apply mapped_keys_NoDup.
Qed.

Lemma nestedMeasures_perm ms :
  NoDup ms → nestedMeasures ms ≡ₚ ms ≫= nestedMeasure.
Proof.
  intros Hnd. unfold nestedMeasures.
  rewrite fold_spread_perm; [done|]. simpl. by rewrite nested_keys.
Qed.

Lemma obj_spread_keys (a b : object) :
  NoDup (a.*1 ++ b.*1) → (obj_spread a b).*1 ≡ₚ a.*1 ++ b.*1.
Proof. intros Hnd. by rewrite obj_spread_perm, fmap_app. Qed.

Lemma obj_delete_keys k (o : object) :
  (obj_delete k o).*1 = filter (λ k', k' ≠ k) o.*1.
Proof.
  unfold obj_delete. induction o as [|[k' v] o IH]; [done|].
  rewrite fmap_cons, !filter_cons. simpl.
  destruct (decide (k' ≠ k)); [by rewrite fmap_cons, IH | done].
Qed.

Lemma obj_delete_length k (o : object) keys :
  o.*1 ≡ₚ k :: keys → k ∉ keys → length (obj_delete k o) = length keys.
Proof.
  intros Hperm Hk.
  rewrite <- (length_fmap fst), obj_delete_keys, Hperm.
  rewrite filter_cons_False by (intros H; by apply H).
  rewrite filter_all; [done|].
  apply Forall_forall. by intros k' Hin ->.
Qed.

Lemma js_replace_count : js_replace "." "_" "count" = "count".
Proof. reflexivity. Qed.

(** C9, with the reserved name excluded: for non-empty lists of dimensions
    and measures with pairwise distinct names, pairwise distinct encoded
    dimension names, none of them [count] and none of them [_id],
    [createCube] returns a grouping stage whose [_id] has one key per
    dimension and which has [1 + 4 * |measures|] other fields, and a
    projection stage with [1 + |measures| + |dimensions|] fields besides
    [_id]. *)
Theorem createCube_field_counts dimensions measures outCollection :
  dimensions ≠ [] → measures ≠ [] →
  distinct_names dimensions measures →
  "_id" ∉ dimensions ++ measures →
  ∃ group project ids,
    createCube dimensions measures outCollection =
      [ JObj [("$group", JObj group)];
        JObj [("$project", JObj project)];
        JObj [("$out", outCollection)] ]
    ∧ obj_get "_id" group = JObj ids
    ∧ length ids = length dimensions
    ∧ length (obj_delete "_id" group) = 1 + 4 * length measures
    ∧ length (obj_delete "_id" project)
      = 1 + length measures + length dimensions.
Proof.
  intros _ _ (Hnd & Hdashed & Hcount) Hid.
  apply NoDup_app in Hnd as (Hdims & Hdisj & Hms).
  apply not_elem_of_app in Hcount as [Hcd Hcm].
  apply not_elem_of_app in Hid as [Hid Him].
  assert (Hcdim : "count" ∉ dimensions).
  { intros Hin. apply Hcd. rewrite <- js_replace_count.
    by apply list_elem_of_fmap_2. }
  exists (cube_group dimensions measures),
         (cube_project dimensions measures),
         (zipObject (dashedDimensions dimensions)
                    (dollaredDimensions dimensions)).
  split; [reflexivity|].
  assert (Hmapped : (mappedMeasures measures).*1
                    ≡ₚ (measures ≫= mapMeasure).*1)
    by by rewrite mappedMeasures_perm.
  assert (Hnested : (nestedMeasures measures).*1 ≡ₚ measures)
    by by rewrite nestedMeasures_perm, nested_keys.
  assert (Hunwrapped : (unwrappedDimensions dimensions).*1 ≡ₚ dimensions).
  { unfold unwrappedDimensions, zipObject. by rewrite zip_into_keys. }
  assert (Hgroup : (cube_group dimensions measures).*1
                   ≡ₚ "_id" :: "count" :: (measures ≫= mapMeasure).*1).
  { unfold cube_group. rewrite obj_spread_keys; rewrite Hmapped; [done|].
    simpl. repeat (apply NoDup_cons; split).
    - rewrite elem_of_cons. intros [[=]|Hin]. revert Hin.
      apply mapped_keys_not. left. simpl. lia.
    - apply mapped_keys_not. by right.
    - by apply mapped_keys_NoDup. }
  split; [|split; [|split]].
  - unfold cube_group. rewrite obj_get_spread_ne; [done|].
    rewrite Hmapped. apply mapped_keys_not. left. simpl. lia.
  - rewrite zipObject_length by done.
    unfold dashedDimensions. apply length_fmap.
  - rewrite (obj_delete_length _ _ _ Hgroup).
    + simpl. by rewrite length_fmap, mapMeasure_bind_length.
    + rewrite elem_of_cons. intros [[=]|Hin]. revert Hin.
      apply mapped_keys_not. left. simpl. lia.
  - assert (Hproject : (cube_project dimensions measures).*1
                       ≡ₚ "_id" :: "count" :: measures ++ dimensions).
    { unfold cube_project.
      assert (Hinner : (obj_spread [("_id", JNum 0); ("count", JNum 1)]
                          (nestedMeasures measures)).*1
                       ≡ₚ "_id" :: "count" :: measures).
      { rewrite obj_spread_keys; rewrite Hnested; [done|]. simpl.
        repeat (apply NoDup_cons; split); try done.
        rewrite elem_of_cons. by intros [[=]|Hin]. }
      rewrite obj_spread_keys; rewrite Hinner, Hunwrapped; [done|]. simpl.
      repeat (apply NoDup_cons; split).
      - rewrite elem_of_cons, elem_of_app. by intros [[=]|[?|?]].
      - rewrite elem_of_app. by intros [?|?].
      - apply NoDup_app. split; [done|]. split; [|done].
        intros k Hk Hk'. by apply (Hdisj k). }
    rewrite (obj_delete_length _ _ _ Hproject).
    + simpl. rewrite length_app. lia.
    + rewrite elem_of_cons, elem_of_app. by intros [[=]|[?|?]].
Qed.

Lemma createCube_field_counts_witness :
  ∃ group project ids,
    createCube ["State"; "Color"] ["Weight"] (JStr "cube") =
      [ JObj [("$group", JObj group)];
        JObj [("$project", JObj project)];
        JObj [("$out", JStr "cube")] ]
    ∧ obj_get "_id" group = JObj ids
    ∧ length ids = length ["State"; "Color"]
    ∧ length (obj_delete "_id" group) = 1 + 4 * length ["Weight"]
    ∧ length (obj_delete "_id" project)
      = 1 + length ["Weight"] + length ["State"; "Color"].
Proof.
  apply (createCube_field_counts ["State"; "Color"] ["Weight"] (JStr "cube")).
  - discriminate.
  - discriminate.
  - repeat split; apply (bool_decide_unpack _); vm_compute; reflexivity.
  - apply (bool_decide_unpack _); vm_compute; reflexivity.
Defined.

(** C9 as stated fails when a dimension is named [_id]: the names are
    pairwise distinct and none is [count], but the dimension's lifted field
    overwrites the projection's [_id] entry, which leaves two fields besides
    [_id] where [1 + 1 + 1] are claimed. *)
Lemma createCube_id_dimension_counts :
  ["_id"] ≠ ([] : list string) ∧ ["m"] ≠ ([] : list string)
  ∧ distinct_names ["_id"] ["m"]
  ∧ createCube ["_id"] ["m"] (JStr "cube") !! 1%nat =
      Some (JObj [("$project",
                   JObj [("_id", JStr "$_id._id");
                         ("count", JNum 1);
                         ("m", JObj [("sum", JStr "$m_sum");
                                     ("min", JStr "$m_min");
                                     ("max", JStr "$m_max");
                                     ("count", JStr "$m_count")])])])
  ∧ length (obj_delete "_id" (cube_project ["_id"] ["m"]))
    ≠ 1 + length ["m"] + length ["_id"].
Proof.
  split; [discriminate|]. split; [discriminate|].
  split; [repeat split; apply (bool_decide_unpack _); vm_compute; reflexivity|].
  split; [reflexivity|]. vm_compute. discriminate.
Qed.

(** ** The caller's objects *)

Section frame.
Import Heap.

Lemma fresh_val_mono n m v : m ≤ n → fresh_val n v → fresh_val m v.
Proof. destruct v; simpl; lia. Qed.

Lemma fresh_cell_mono n m c : m ≤ n → fresh_cell n c → fresh_cell m c.
Proof.
  intros Hle. destruct c; simpl; intros H;
    (eapply Forall_impl; [exact H|]); intros ?; by apply fresh_val_mono.
Qed.

(** The objects built for a text are appended to the store and refer only
    to one another. *)
Lemma alloc_tree_fresh j :
  ∀ h v h', alloc_tree j h = (v, h') →
    ∃ new, h' = h ++ new ∧ fresh_val (length h) v
           ∧ Forall (fresh_cell (length h)) new.
Proof.
  induction j using value_rect' with
    (Q := λ l, ∀ h vs h', parse_list alloc_tree l h = (vs, h') →
       ∃ new, h' = h ++ new ∧ Forall (fresh_val (length h)) vs
              ∧ Forall (fresh_cell (length h)) new)
    (R := λ o, ∀ h ps h', parse_props alloc_tree o h = (ps, h') →
       ∃ new, h' = h ++ new ∧ Forall (λ p, fresh_val (length h) p.2) ps
              ∧ Forall (fresh_cell (length h)) new);
    intros h w h' Heq; simpl in Heq;
    try (injection Heq as <- <-; exists []; by rewrite app_nil_r).
  - destruct (parse_list alloc_tree l h) as [vs h1] eqn:Hl.
    injection Heq as <- <-.
    destruct (IHj _ _ _ Hl) as (new & -> & Hvs & Hnew).
    exists (new ++ [CArr vs]). rewrite app_assoc. split; [done|]. split.
    + simpl. rewrite length_app. lia.
    + apply Forall_app. split; [done|]. by constructor.
  - destruct (parse_props alloc_tree o h) as [ps h1] eqn:Ho.
    injection Heq as <- <-.
    destruct (IHj _ _ _ Ho) as (new & -> & Hps & Hnew).
    exists (new ++ [CObj ps]). rewrite app_assoc. split; [done|]. split.
    + simpl. rewrite length_app. lia.
    + apply Forall_app. split; [done|]. by constructor.
  - destruct (alloc_tree j h) as [v h1] eqn:Hj.
    destruct (parse_list alloc_tree l h1) as [vs h2] eqn:Hl.
    injection Heq as <- <-.
    destruct (IHj _ _ _ Hj) as (n1 & -> & Hv & Hn1).
    destruct (IHj0 _ _ _ Hl) as (n2 & -> & Hvs & Hn2).
    assert (Hle : length h ≤ length (h ++ n1)) by (rewrite length_app; lia).
    exists (n1 ++ n2). rewrite app_assoc. split; [done|]. split.
    + constructor; [done|].
      eapply Forall_impl; [exact Hvs|]. intros ?. by apply fresh_val_mono.
    + apply Forall_app. split; [done|].
      eapply Forall_impl; [exact Hn2|]. intros ?. by apply fresh_cell_mono.
  - destruct (alloc_tree j h) as [v h1] eqn:Hj.
    destruct (parse_props alloc_tree o h1) as [ps h2] eqn:Ho.
    injection Heq as <- <-.
    destruct (IHj _ _ _ Hj) as (n1 & -> & Hv & Hn1).
    destruct (IHj0 _ _ _ Ho) as (n2 & -> & Hps & Hn2).
    assert (Hle : length h ≤ length (h ++ n1)) by (rewrite length_app; lia).
    exists (n1 ++ n2). rewrite app_assoc. split; [done|]. split.
    + constructor; [done|].
      eapply Forall_impl; [exact Hps|]. intros ?. by apply fresh_val_mono.
    + apply Forall_app. split; [done|].
      eapply Forall_impl; [exact Hn2|]. intros ?. by apply fresh_cell_mono.
Qed.

Lemma Forall_imap_snd (P : val → Prop) (f : nat → val → string * val) l :
  (∀ i x, (f i x).2 = x) → Forall P l → Forall (λ p, P p.2) (imap f l).
Proof.
  intros Hf H. revert f Hf.
  induction H as [|x l' Hx _ IH]; intros f Hf; [constructor|].
  simpl. constructor; [by rewrite Hf|]. apply IH. intros i y. apply Hf.
Qed.

Lemma Forall_index_entries (P : val → Prop) l :
  Forall P l → Forall (λ p, P p.2) (index_entries l).
Proof. by apply Forall_imap_snd. Qed.

Lemma entries_fresh h new v :
  Forall (fresh_cell (length h)) new → fresh_val (length h) v →
  Forall (λ p, fresh_val (length h) p.2) (entries (h ++ new) v).
Proof.
  intros Hnew Hv. unfold entries.
  destruct v as [ | | b | z | s | l ]; try constructor.
  - apply Forall_index_entries. unfold chars.
    apply Forall_fmap, Forall_forall. by intros.
  - simpl in Hv.
    destruct ((h ++ new) !! l) as [c|] eqn:Hl; [|constructor].
    rewrite lookup_app_r in Hl by done.
    eapply Forall_lookup in Hnew; [|exact Hl].
    destruct c; simpl in Hnew; [by apply Forall_index_entries | done].
Qed.

Lemma lookup_prop_fresh n k o :
  Forall (λ p, fresh_val n p.2) o → fresh_val n (lookup_prop k o).
Proof.
  induction 1 as [|[k' v] o Hv _ IH]; simpl; [done|].
  by destruct (String.eqb k' k).
Qed.

Lemma get_index_fresh h new v i w :
  Forall (fresh_cell (length h)) new → fresh_val (length h) v →
  get_index (h ++ new) v i = Return w → fresh_val (length h) w.
Proof.
  intros Hnew Hv Hget.
  assert (w = lookup_prop (pretty i) (entries (h ++ new) v)) as ->.
  { unfold get_index in Hget.
    destruct v; try discriminate; by injection Hget as <-. }
  by apply lookup_prop_fresh, entries_fresh.
Qed.

Lemma get_field_fresh h new v k w :
  Forall (fresh_cell (length h)) new → fresh_val (length h) v →
  get_field (h ++ new) v k = Return w → fresh_val (length h) w.
Proof.
  intros Hnew Hv Hget.
  unfold get_field in Hget.
  destruct v as [ | | b | z | s | l ];
    try (injection Hget as <-; done); try done.
  pose proof (entries_fresh h new (VRef l) Hnew Hv) as He.
  unfold entries in He.
  destruct ((h ++ new) !! l) as [[elems|props]|];
    try (injection Hget as <-; done).
  injection Hget as <-. by apply lookup_prop_fresh.
Qed.

(** Deleting a property of an object that is not among the first [n] leaves
    the first [n] objects as they are. *)
Lemma js_delete_fresh h new v k r h' :
  fresh_val (length h) v →
  js_delete v k (h ++ new) = (r, h') → ∃ new', h' = h ++ new'.
Proof.
  intros Hv Hdel. unfold js_delete in Hdel.
  destruct v as [ | | b | z | s | l ];
    try (injection Hdel as <- <-; by exists new).
  simpl in Hv.
  destruct ((h ++ new) !! l) as [[elems|props]|];
    try (injection Hdel as <- <-; by exists new).
  injection Hdel as <- <-.
  eexists. by apply insert_app_r_alt.
Qed.

Lemma JSON_parse_fresh text h r h' :
  JSON_parse text h = (r, h') →
  ∃ new, h' = h ++ new ∧ Forall (fresh_cell (length h)) new
         ∧ ∀ v, r = Return v → fresh_val (length h) v.
Proof.
  unfold JSON_parse. intros Hp.
  assert (Hundef : (Throw SyntaxError, h) = (r, h') →
    ∃ new, h' = h ++ new ∧ Forall (fresh_cell (length h)) new
           ∧ ∀ v, r = Return v → fresh_val (length h) v).
  { intros [= <- <-]. exists []. by rewrite app_nil_r. }
  destruct (alloc_tree text h) as [v h1] eqn:Ha.
  apply alloc_tree_fresh in Ha as (new & -> & Hv & Hnew).
  destruct text; try (by apply Hundef);
    injection Hp as <- <-; exists new; (split; [done|]); (split; [done|]);
    by intros ? [= <-].
Qed.

(** Whatever the call returns or throws, the store after it is the store
    before it followed by new objects: the property deleted is one of the
    copy. *)
Lemma checkCompatibility_store_extends ppl h :
  ∃ new, (checkCompatibility ppl h).2 = h ++ new.
Proof.
  assert (Hsame : ∀ r : result (list tuple), ∃ new, (r, h).2 = h ++ new).
  { intros r. exists []. by rewrite app_nil_r. }
  unfold checkCompatibility.
  unfold mbind at 1. unfold js_bind at 1. unfold read at 1.
  destruct (get_index h ppl 0 ≫= _) as [op|e]; [|apply Hsame].
  case_bool_decide; [apply Hsame|].
  unfold mbind at 1. unfold js_bind at 1. unfold JSON_stringify, read at 1.
  destruct (stringify (S (length h)) h ppl) as [text|]; [|apply Hsame].
  unfold mbind at 1. unfold js_bind at 1.
  destruct (JSON_parse text h) as [[ppl'|e] h1] eqn:Hp;
    apply JSON_parse_fresh in Hp as (new & -> & Hnew & Hv); [|by exists new].
  specialize (Hv ppl' eq_refl).
  unfold mbind at 1. unfold js_bind at 1. unfold read at 1.
  destruct (get_index (h ++ new) ppl' 0) as [stage|e] eqn:Hs;
    [|by exists new].
  apply get_index_fresh in Hs; [|done..].
  cbn [mbind result_bind].
  destruct (get_field (h ++ new) stage "$group") as [group|e] eqn:Hg;
    [|by exists new].
  apply get_field_fresh in Hg; [|done..].
  unfold mbind at 1. unfold js_bind at 1.
  destruct (js_delete group "_id" (h ++ new)) as [[[]|e] h2] eqn:Hd;
    apply js_delete_fresh in Hd as [new' ->]; [|done|by exists new'|done].
  unfold mbind at 1. unfold js_bind at 1. unfold read at 1.
  destruct (js_every _ _) as [valid|e]; [|by exists new'].
  destruct (negb valid); by exists new'.
Qed.

(** What can be read of the old objects is the same afterwards: a value
    that [JSON.stringify] could write before the call is written the same
    after it. *)
Lemma stringify_extend new n :
  ∀ h v j, stringify n h v = Some j → stringify n (h ++ new) v = Some j.
Proof.
  induction n as [|n IH]; intros h v j; destruct v as [ | | b | z | s | l ];
    try done.
  cbn [stringify].
  destruct (h !! l) as [c|] eqn:Hl; [|done].
  rewrite (lookup_app_l_Some _ _ _ _ Hl).
  destruct c as [elems|props].
  - destruct (mapM _ elems) as [js|] eqn:Hm; [|done].
    intros [= <-]. apply mapM_Some in Hm.
    assert (mapM (λ x, j ← stringify n (h ++ new) x;
                       Some (match j with JUndefined => JNull | _ => j end))
                 elems = Some js) as ->; [|done].
    apply mapM_Some. eapply Forall2_impl; [exact Hm|]. simpl.
    intros x y Hx. destruct (stringify n h x) as [jx|] eqn:Hjx; [|done].
    by rewrite (IH _ _ _ Hjx).
  - destruct (mapM _ props) as [ps|] eqn:Hm; [|done].
    intros [= <-]. apply mapM_Some in Hm.
    assert (mapM (λ p, j ← stringify n (h ++ new) p.2; Some (p.1, j))
                 props = Some ps) as ->; [|done].
    apply mapM_Some. eapply Forall2_impl; [exact Hm|]. simpl.
    intros x y Hx. destruct (stringify n h x.2) as [jx|] eqn:Hjx; [|done].
    by rewrite (IH _ _ _ Hjx).
Qed.

(** C6: whatever [checkCompatibility] returns or throws, no object that
    existed before the call has been changed: the store after the call is
    the store before it followed by new objects, every object is found
    unchanged at its reference, and every value that [JSON.stringify] could
    write before the call, the caller's pipeline among them, is written the
    same after it. *)
Theorem checkCompatibility_keeps_caller_objects ppl h :
  (∃ new, (checkCompatibility ppl h).2 = h ++ new)
  ∧ (∀ l c, h !! l = Some c → (checkCompatibility ppl h).2 !! l = Some c)
  ∧ (∀ n v j, stringify n h v = Some j →
              stringify n (checkCompatibility ppl h).2 v = Some j).
Proof.
  destruct (checkCompatibility_store_extends ppl h) as [new Hnew].
  split; [by exists new|]. rewrite Hnew. split.
  - intros l c. apply lookup_app_l_Some.
  - intros n v j. apply stringify_extend.
Qed.

(** The README's second pipeline, held in an empty store, and the call on
    it: the seven objects of the caller are as before, the grouping stage
    of the copy (the ninth object) has lost its [_id]. *)
Example checkCompatibility_p2_store :
  alloc_tree (JArr p2) [] =
    (VRef 6,
     [ CObj [("$avg", VStr "$Unladen Weight")];
       CObj [("_id", VStr "$Model Year"); ("avg_weight", VRef 0)];
       CObj [("$group", VRef 1)];
       CObj [("avg_weight", VNum (-1))];
       CObj [("$sort", VRef 3)];
       CObj [("$limit", VNum 3)];
       CArr [VRef 2; VRef 4; VRef 5] ])
  ∧ checkCompatibility (VRef 6) (alloc_tree (JArr p2) []).2 =
    (Return [("avg_weight", "avg", "Unladen Weight")],
     (alloc_tree (JArr p2) []).2 ++
     [ CObj [("$avg", VStr "$Unladen Weight")];
       CObj [("avg_weight", VRef 7)];
       CObj [("$group", VRef 8)];
       CObj [("avg_weight", VNum (-1))];
       CObj [("$sort", VRef 10)];
       CObj [("$limit", VNum 3)];
       CArr [VRef 9; VRef 11; VRef 12] ]).
Proof. split; reflexivity. Qed.

(** The deletion applied to the caller's own grouping stage would have
    changed it. *)
Example js_delete_in_place :
  js_delete (VRef 1) "_id" (alloc_tree (JArr p2) []).2 =
    (Return (),
     [ CObj [("$avg", VStr "$Unladen Weight")];
       CObj [("avg_weight", VRef 0)];
       CObj [("$group", VRef 1)];
       CObj [("avg_weight", VNum (-1))];
       CObj [("$sort", VRef 3)];
       CObj [("$limit", VNum 3)];
       CArr [VRef 2; VRef 4; VRef 5] ]).
Proof. reflexivity. Qed.

End frame.

(** ** The store model returns what the functional model returns *)

Section representation.
Import Heap.

Lemma repr_JArr h l v :
  repr h (JArr l) v ↔
  ∃ loc vs, v = VRef loc ∧ h !! loc = Some (CArr vs) ∧ repr_elems h loc l vs.
Proof.
  simpl. unfold repr_elems.
  assert (Hgo : ∀ loc l' vs,
    (fix go (l : list value) (vs : list val) : Prop :=
       match l, vs with
       | [], [] => True
       | x :: l', w :: vs' => (repr h x w ∧ below loc w) ∧ go l' vs'
       | _, _ => False
       end) l' vs ↔ Forall2 (λ x w, repr h x w ∧ below loc w) l' vs).
  { intros loc l'. induction l' as [|x l' IH]; intros [|w vs].
    - split; [constructor | done].
    - split; [done | by intros ?%Forall2_nil_cons_inv].
    - split; [done | by intros ?%Forall2_cons_nil_inv].
    - rewrite IH, Forall2_cons. done. }
  split; intros (loc & vs & -> & Hl & Hgo'); exists loc, vs;
    (split; [done|]); (split; [done|]); by apply Hgo.
Qed.

Lemma repr_JObj h o v :
  repr h (JObj o) v ↔
  ∃ loc ps, v = VRef loc ∧ h !! loc = Some (CObj ps) ∧ repr_props h loc o ps.
Proof.
  simpl. unfold repr_props.
  assert (Hgo : ∀ loc o' ps,
    (fix go (o : object) (ps : list (string * val)) : Prop :=
       match o, ps with
       | [], [] => True
       | (k, x) :: o', (k', w) :: ps' =>
           (k = k' ∧ repr h x w ∧ below loc w) ∧ go o' ps'
       | _, _ => False
       end) o' ps
    ↔ Forall2 (λ p q, p.1 = q.1 ∧ repr h p.2 q.2 ∧ below loc q.2) o' ps).
  { intros loc o'. induction o' as [|[k x] o' IH]; intros [|[k' w] ps].
    - split; [constructor | done].
    - split; [done | by intros ?%Forall2_nil_cons_inv].
    - split; [done | by intros ?%Forall2_cons_nil_inv].
    - rewrite IH, Forall2_cons. done. }
  split; intros (loc & ps & -> & Hl & Hgo'); exists loc, ps;
    (split; [done|]); (split; [done|]); by apply Hgo.
Qed.

Lemma below_mono n m w : n ≤ m → below n w → below m w.
Proof. destruct w; simpl; lia. Qed.

Lemma repr_extend h new j :
  ∀ v, repr h j v → repr (h ++ new) j v.
Proof.
  induction j using value_rect' with
    (Q := λ l, ∀ loc vs, repr_elems h loc l vs →
                         repr_elems (h ++ new) loc l vs)
    (R := λ o, ∀ loc ps, repr_props h loc o ps →
                         repr_props (h ++ new) loc o ps);
    try done.
  - intros v (loc & vs & -> & Hl & Hvs)%repr_JArr. apply repr_JArr.
    exists loc, vs. split; [done|]. split; [|by apply IHj].
    by apply lookup_app_l_Some.
  - intros v (loc & ps & -> & Hl & Hps)%repr_JObj. apply repr_JObj.
    exists loc, ps. split; [done|]. split; [|by apply IHj].
    by apply lookup_app_l_Some.
  - intros loc vs ->%Forall2_nil_inv_l. constructor.
  - intros loc vs (w & vs' & [Hw Hb] & Hvs & ->)%Forall2_cons_inv_l.
    constructor; [split; [by apply IHj | done] | by apply IHj0].
  - intros loc ps ->%Forall2_nil_inv_l. constructor.
  - intros loc ps (q & ps' & (Hk & Hw & Hb) & Hps & ->)%Forall2_cons_inv_l.
    constructor; [|by apply IHj0].
    split; [done|]. split; [by apply IHj | done].
Qed.

Lemma repr_elems_extend h new loc loc' l vs :
  loc ≤ loc' → repr_elems h loc l vs → repr_elems (h ++ new) loc' l vs.
Proof.
  intros Hle H. eapply Forall2_impl; [exact H|]. simpl.
  intros x w [Hw Hb]. split; [by apply repr_extend | by eapply below_mono].
Qed.

Lemma repr_props_extend h new loc loc' o ps :
  loc ≤ loc' → repr_props h loc o ps → repr_props (h ++ new) loc' o ps.
Proof.
  intros Hle H. eapply Forall2_impl; [exact H|]. simpl.
  intros p q (Hk & Hw & Hb).
  split; [done|]. split; [by apply repr_extend | by eapply below_mono].
Qed.

(** The objects built for a text hold that text. *)
Lemma alloc_tree_repr j :
  ∀ h v h', alloc_tree j h = (v, h') →
    (∃ new, h' = h ++ new) ∧ repr h' j v ∧ below (length h') v.
Proof.
  induction j using value_rect' with
    (Q := λ l, ∀ h vs h', parse_list alloc_tree l h = (vs, h') →
       (∃ new, h' = h ++ new) ∧ repr_elems h' (length h') l vs)
    (R := λ o, ∀ h ps h', parse_props alloc_tree o h = (ps, h') →
       (∃ new, h' = h ++ new) ∧ repr_props h' (length h') o ps);
    intros h w h' Heq; simpl in Heq;
    try (injection Heq as <- <-; split; [exists []; by rewrite app_nil_r|];
         by repeat constructor).
  - destruct (parse_list alloc_tree l h) as [vs h1] eqn:Hl.
    injection Heq as <- <-.
    destruct (IHj _ _ _ Hl) as ([new ->] & Hvs).
    split; [exists (new ++ [CArr vs]); by rewrite app_assoc|]. split.
    + apply repr_JArr. exists (length (h ++ new)), vs. split; [done|].
      split; [by apply list_lookup_middle|].
      eapply repr_elems_extend; [|exact Hvs]. done.
    + simpl. rewrite (length_app (h ++ new)). simpl. lia.
  - destruct (parse_props alloc_tree o h) as [ps h1] eqn:Ho.
    injection Heq as <- <-.
    destruct (IHj _ _ _ Ho) as ([new ->] & Hps).
    split; [exists (new ++ [CObj ps]); by rewrite app_assoc|]. split.
    + apply repr_JObj. exists (length (h ++ new)), ps. split; [done|].
      split; [by apply list_lookup_middle|].
      eapply repr_props_extend; [|exact Hps]. done.
    + simpl. rewrite (length_app (h ++ new)). simpl. lia.
  - destruct (alloc_tree j h) as [v h1] eqn:Hj.
    destruct (parse_list alloc_tree l h1) as [vs h2] eqn:Hl.
    injection Heq as <- <-.
    destruct (IHj _ _ _ Hj) as ([n1 ->] & Hv & Hb).
    destruct (IHj0 _ _ _ Hl) as ([n2 ->] & Hvs).
    split; [exists (n1 ++ n2); by rewrite app_assoc|].
    constructor; [|done]. split; [by apply repr_extend|].
    eapply below_mono; [|exact Hb]. rewrite (length_app (h ++ n1)). lia.
  - destruct (alloc_tree j h) as [v h1] eqn:Hj.
    destruct (parse_props alloc_tree o h1) as [ps h2] eqn:Ho.
    injection Heq as <- <-.
    destruct (IHj _ _ _ Hj) as ([n1 ->] & Hv & Hb).
    destruct (IHj0 _ _ _ Ho) as ([n2 ->] & Hps).
    split; [exists (n1 ++ n2); by rewrite app_assoc|].
    constructor; [|done]. split; [done|]. split; [by apply repr_extend|].
    eapply below_mono; [|exact Hb]. rewrite (length_app (h ++ n1)). lia.
Qed.

Lemma filter_defined_clone (o : object) :
  filter (λ p, defined p.2 = true) ((λ p, (p.1, json_clone p.2)) <$> o)
  = clone_props o.
Proof.
  induction o as [|[k x] o IH]; [done|].
  rewrite fmap_cons, filter_cons, clone_props_cons, IH.
  by destruct x.
Qed.

(** On a tree, [JSON.stringify] with enough levels gives the text of the
    tree's copy. *)
Lemma stringify_repr h j :
  ∀ n v, repr h j v → (∀ loc, v = VRef loc → loc < n) →
         stringify n h v = Some (json_clone j).
Proof.
  induction j using value_rect' with
    (Q := λ l, ∀ n loc vs, repr_elems h loc l vs → loc ≤ n →
       mapM (λ x, j ← stringify n h x;
                  Some (match j with JUndefined => JNull | _ => j end)) vs
       = Some (clone_array l))
    (R := λ o, ∀ n loc ps, repr_props h loc o ps → loc ≤ n →
       mapM (λ p, j ← stringify n h p.2; Some (p.1, j)) ps
       = Some ((λ p, (p.1, json_clone p.2)) <$> o)).
  1-5: by (repeat intro; simpl in *; subst;
           match goal with |- stringify ?m _ _ = _ => destruct m end).
  - intros n v (loc & vs & -> & Hl & Hvs)%repr_JArr Hn.
    specialize (Hn loc eq_refl). destruct n as [|n]; [lia|].
    cbn [stringify]. rewrite Hl. erewrite IHj; [done|exact Hvs|lia].
  - intros n v (loc & ps & -> & Hl & Hps)%repr_JObj Hn.
    specialize (Hn loc eq_refl). destruct n as [|n]; [lia|].
    cbn [stringify]. rewrite Hl. erewrite IHj; [|exact Hps|lia].
    simpl. by rewrite filter_defined_clone.
  - by intros n loc vs ->%Forall2_nil_inv_l.
  - intros n loc vs (w & vs' & [Hw Hb] & Hvs & ->)%Forall2_cons_inv_l Hn.
    cbn [mapM]. rewrite (IHj n w Hw).
    2:{ intros lc ->. simpl in Hb. lia. }
    simpl. erewrite IHj0; [|exact Hvs|done]. simpl. by destruct j.
  - by intros n loc ps ->%Forall2_nil_inv_l.
  - intros n loc ps ([k' w] & ps' & (Hk & Hw & Hb) & Hps & ->)%Forall2_cons_inv_l Hn.
    simpl in Hk, Hw, Hb. subst k'.
    cbn [mapM]. simpl. rewrite (IHj n w Hw).
    2:{ intros lc ->. simpl in Hb. lia. }
    simpl. erewrite IHj0; [|exact Hps|done]. done.
Qed.

End representation.

Section refinement.

Lemma Forall2_imap_entries {A B} (R : A → B → Prop) (g : nat → string) l vs :
  Forall2 R l vs →
  Forall2 (λ p q, p.1 = q.1 ∧ R p.2 q.2)
    (imap (λ i x, (g i, x)) l) (imap (λ i x, (g i, x)) vs).
Proof.
  intros H. revert g. induction H as [|x w l vs Hxw _ IH]; intros g.
  - constructor.
  - simpl. constructor; [done|]. apply (IH (g ∘ S)).
Qed.

Lemma chars_repr h s : Forall2 (Heap.repr h) (chars s) (Heap.chars s).
Proof.
  unfold chars, Heap.chars.
  induction (list_ascii_of_string s) as [|c l IH]; by constructor.
Qed.

(** The properties of a tree and of the object that holds it. *)
Lemma entries_repr h j v :
  Heap.repr h j v →
  Forall2 (λ p q, p.1 = q.1 ∧ Heap.repr h p.2 q.2)
    (entries j) (Heap.entries h v).
Proof.
  destruct j as [ | | b | z | s | l | o ].
  1-4: by (intros ->; constructor).
  - intros ->. apply Forall2_imap_entries, chars_repr.
  - intros (loc & vs & -> & Hl & Hvs)%repr_JArr.
    unfold Heap.entries. rewrite Hl. apply Forall2_imap_entries.
    eapply Forall2_impl; [exact Hvs|]. by intros x w [? _].
  - intros (loc & ps & -> & Hl & Hps)%repr_JObj.
    unfold Heap.entries. rewrite Hl.
    eapply Forall2_impl; [exact Hps|]. by intros p q (? & ? & _).
Qed.

Lemma repr_shallow h j v : Heap.repr h j v → shallow j v.
Proof.
  destruct j as [ | | b | z | s | l | o ]; try (by intros ->).
  - by intros (loc & vs & -> & _)%repr_JArr.
  - by intros (loc & ps & -> & _)%repr_JObj.
Qed.

Lemma same_accumulator_of_entries h x w :
  shallow x w →
  Forall2 (λ p q, p.1 = q.1 ∧ shallow p.2 q.2)
    (entries x) (Heap.entries h w) →
  same_accumulator h x w.
Proof.
  intros Hs He. split.
  - assert (Hk : (Heap.entries h w).*1 = (entries x).*1).
    { induction He as [|p q es ves [Hpq _] _ IH]; [done|].
      by rewrite !fmap_cons, Hpq, IH. }
    unfold Heap.Object_keys, Object_keys. rewrite Hk.
    by destruct x, w.
  - unfold values, Heap.values, js_nth.
    destruct He as [|p q es ves [_ Hpq] _]; [done|]. by rewrite !fmap_cons.
Qed.

Lemma same_accumulator_repr h x w :
  Heap.repr h x w → same_accumulator h x w.
Proof.
  intros Hr. apply same_accumulator_of_entries; [by eapply repr_shallow|].
  eapply Forall2_impl; [by apply entries_repr|]. simpl.
  intros p q [? ?]. split; [done|]. by eapply repr_shallow.
Qed.

Lemma entries_insert_below h lg c w :
  Heap.below lg w → Heap.entries (<[lg:=c]> h) w = Heap.entries h w.
Proof.
  destruct w as [ | | b | z | s | la ]; try done. simpl. intros Hlt.
  unfold Heap.entries. rewrite list_lookup_insert_ne by lia. done.
Qed.

Lemma same_accumulator_insert h lg c x w :
  Heap.below lg w → same_accumulator h x w →
  same_accumulator (<[lg:=c]> h) x w.
Proof.
  intros Hb [Hk Hv]. unfold same_accumulator, Heap.Object_keys, Heap.values in *.
  by rewrite entries_insert_below.
Qed.

Lemma valid_accumulator_same h x w :
  same_accumulator h x w → Heap.valid_accumulator h w = valid_accumulator x.
Proof. intros [Hk _]. unfold Heap.valid_accumulator, valid_accumulator. by rewrite Hk. Qed.

Lemma tuple_of_same h k x w :
  same_accumulator h x w → Heap.tuple_of h (k, w) = tuple_of (k, x).
Proof.
  intros [Hk Hv]. unfold Heap.tuple_of, tuple_of. rewrite Hk.
  destruct (Object_keys x) as [keys|e]; [|done]. simpl.
  destruct (keys !! 0%nat) as [op|]; [|done]. simpl.
  destruct (js_nth (values x) 0) as [ | | b | z | s | l | o ],
           (default Heap.VUndefined (Heap.values h w !! 0%nat))
             as [ | | b' | z' | s' | l' ];
    simpl in Hv; try done; subst; try done.
  by destruct z' as [|[]|].
Qed.

Lemma scan_same h (es : object) ves :
  Forall2 (λ p q, p.1 = q.1 ∧ same_accumulator h p.2 q.2) es ves →
  js_every (Heap.valid_accumulator h) ves.*2 = js_every valid_accumulator es.*2
  ∧ mapM (Heap.tuple_of h) ves = mapM tuple_of es.
Proof.
  induction 1 as [|[k x] [k' w] es ves [Hk Hs] _ [IH1 IH2]]; [done|].
  simpl in Hk, Hs. subst k'. rewrite !fmap_cons. split.
  - cbn [js_every]. simpl. by rewrite (valid_accumulator_same h x w Hs), IH1.
  - cbn [mapM]. by rewrite (tuple_of_same h k x w Hs), IH2.
Qed.

Lemma Object_keys_repr h j v :
  Heap.repr h j v → Heap.Object_keys h v = Object_keys j.
Proof. intros Hr. by apply same_accumulator_repr in Hr as [? _]. Qed.

Lemma get_index_0_repr h l v :
  Heap.repr h (JArr l) v →
  ∃ w, Heap.get_index h v 0 = Return w ∧ Heap.repr h (js_nth l 0) w.
Proof.
  intros (loc & vs & -> & Hl & Hvs)%repr_JArr.
  unfold Heap.get_index, Heap.entries. rewrite Hl.
  destruct Hvs as [|x w l vs [Hxw _] _].
  - by exists Heap.VUndefined.
  - exists w. split; [reflexivity | done].
Qed.

Lemma lookup_prop_repr h loc k o ps :
  Heap.repr_props h loc o ps →
  Heap.repr h (obj_get k o) (Heap.lookup_prop k ps).
Proof.
  induction 1 as [|[k1 x] [k2 w] o ps (Hk & Hr & _) _ IH]; [done|].
  simpl in *. subst k2. by destruct (String.eqb k1 k).
Qed.

Lemma get_field_repr h j v k :
  Heap.repr h j v →
  match get_field j k with
  | Throw e => Heap.get_field h v k = Throw e
  | Return j' => ∃ w, Heap.get_field h v k = Return w ∧ Heap.repr h j' w
  end.
Proof.
  destruct j as [ | | b | z | s | l | o ]; try (by intros ->).
  1-3: by (intros ->; exists Heap.VUndefined).
  - intros (loc & vs & -> & Hl & _)%repr_JArr. simpl. rewrite Hl.
    by exists Heap.VUndefined.
  - intros (loc & ps & -> & Hl & Hps)%repr_JObj. simpl. rewrite Hl.
    eexists. split; [done|]. by eapply lookup_prop_repr.
Qed.

Lemma Forall2_filter_key {A B} (R : string * A → string * B → Prop) k o ps :
  Forall2 (λ p q, p.1 = q.1 ∧ R p q) o ps →
  Forall2 (λ p q, p.1 = q.1 ∧ R p q)
    (filter (λ p, p.1 ≠ k) o) (filter (λ p, p.1 ≠ k) ps).
Proof.
  induction 1 as [|p q o ps [Hk Hr] _ IH]; [constructor|].
  rewrite !filter_cons. rewrite <- Hk.
  destruct (decide (p.1 ≠ k)); [by constructor | done].
Qed.

(** After [delete group._id], be it on an object or on a value without
    properties to delete, the fields that remain are those of the functional
    model. *)
Lemma js_delete_same h gj gv :
  Heap.repr h gj gv →
  match js_delete gj "_id" with
  | Throw e => Heap.js_delete gv "_id" h = (Throw e, h)
  | Return gj' =>
      ∃ h', Heap.js_delete gv "_id" h = (Return (), h')
            ∧ Forall2 (λ p q, p.1 = q.1 ∧ same_accumulator h' p.2 q.2)
                (entries gj') (Heap.entries h' gv)
  end.
Proof.
  intros Hr.
  assert (Hsame : Forall2 (λ p q, p.1 = q.1 ∧ same_accumulator h p.2 q.2)
                    (entries gj) (Heap.entries h gv)).
  { eapply Forall2_impl; [by apply entries_repr|]. simpl.
    intros p q [? ?]. split; [done|]. by apply same_accumulator_repr. }
  destruct gj as [ | | b | z | s | l | o ]; simpl.
  1-2: by rewrite Hr.
  1-3: by (rewrite Hr in Hsame |- *; exists h).
  - apply repr_JArr in Hr as (loc & vs & -> & Hl & _).
    exists h. split; [|done]. unfold Heap.js_delete. by rewrite Hl.
  - apply repr_JObj in Hr as (loc & ps & -> & Hl & Hps).
    eexists. split; [unfold Heap.js_delete; by rewrite Hl|].
    unfold Heap.entries at 1.
    rewrite list_lookup_insert_eq by by eapply lookup_lt_Some.
    unfold obj_delete.
    apply (Forall2_filter_key
             (λ p q, same_accumulator (<[loc:=_]> h) p.2 q.2)).
    eapply Forall2_impl; [exact Hps|]. simpl.
    intros p q (Hk & Hpq & Hb). split; [done|].
    by apply same_accumulator_insert, same_accumulator_repr.
Qed.

(** On a pipeline held in the store as a tree, the store model of
    [checkCompatibility] returns, or throws, what the functional model
    does. *)
Theorem checkCompatibility_store_result h ppl v :
  Heap.repr h (JArr ppl) v →
  (Heap.checkCompatibility v h).1 = checkCompatibility ppl.
Proof.
  intros Hr.
  destruct (get_index_0_repr _ _ _ Hr) as (w0 & Hget & Hr0).
  pose proof (Object_keys_repr _ _ _ Hr0) as Hkeys.
  unfold Heap.checkCompatibility, checkCompatibility.
  unfold mbind at 1. unfold Heap.js_bind at 1. unfold Heap.read at 1.
  rewrite Hget. cbn [mbind result_bind]. rewrite Hkeys.
  destruct (Object_keys (js_nth ppl 0)) as [keys|e]; [|done].
  cbn [mbind result_bind mret result_ret].
  case_bool_decide; [done|].
  unfold mbind at 1. unfold Heap.js_bind at 1.
  unfold Heap.JSON_stringify, Heap.read at 1.
  rewrite (stringify_repr h (JArr ppl) (S (length h)) v Hr).
  2:{ intros loc ->. apply repr_JArr in Hr as (loc' & vs & [= <-] & Hl & _).
      apply lookup_lt_Some in Hl. lia. }
  change (json_clone (JArr ppl)) with (JArr (clone_array ppl)).
  unfold mbind at 1. unfold Heap.js_bind at 1. unfold Heap.JSON_parse.
  destruct (Heap.alloc_tree (JArr (clone_array ppl)) h) as [v2 h2] eqn:Ha.
  apply alloc_tree_repr in Ha as (_ & Hr2 & _).
  destruct (get_index_0_repr _ _ _ Hr2) as (st2 & Hget2 & Hrs).
  unfold mbind at 1. unfold Heap.js_bind at 1. unfold Heap.read at 1.
  rewrite Hget2. cbn [mbind result_bind].
  pose proof (get_field_repr h2 _ st2 "$group" Hrs) as Hgf.
  destruct (get_field (js_nth (clone_array ppl) 0) "$group") as [gj|e].
  2:{ rewrite Hgf. reflexivity. }
  destruct Hgf as (gv & -> & Hrg). cbn [mbind result_bind].
  pose proof (js_delete_same h2 gj gv Hrg) as Hdel.
  unfold mbind at 1. unfold Heap.js_bind at 1.
  destruct (js_delete gj "_id") as [gj'|e].
  2:{ rewrite Hdel. reflexivity. }
  destruct Hdel as (h3 & -> & Hsame). cbn [mbind result_bind].
  apply scan_same in Hsame as [Hevery Hmap].
  unfold mbind at 1. unfold Heap.js_bind at 1. unfold Heap.read at 1.
  unfold Heap.values, Heap.toPairs, values, toPairs. rewrite Hevery.
  destruct (js_every valid_accumulator (entries gj').*2) as [valid|e];
    [|reflexivity].
  cbn [mbind result_bind].
  destruct valid; [|reflexivity]. unfold Heap.read. simpl. by rewrite Hmap.
Qed.

(** X21 (query_cube.js, [checkCompatibility]): run over a store of mutable
    objects, where the copy is built by [JSON.parse] and [delete group._id]
    changes the copy in place, [checkCompatibility] returns, or throws, what
    the functional model does, for every pipeline and every store the
    pipeline is built in. *)
Corollary checkCompatibility_store_result_alloc h ppl :
  (Heap.checkCompatibility (Heap.alloc_tree (JArr ppl) h).1
                           (Heap.alloc_tree (JArr ppl) h).2).1
  = checkCompatibility ppl.
Proof.
  apply checkCompatibility_store_result.
  destruct (Heap.alloc_tree (JArr ppl) h) as [v h'] eqn:Ha.
  by apply alloc_tree_repr in Ha as (_ & ? & _).
Qed.

End refinement.

(** * Further properties *)

(** ** What [checkCompatibility] accepts and returns *)

Lemma valid_accumulator_Return v b :
  valid_accumulator v = Return b → b = supported (operator_key v).
Proof. destruct v; try discriminate; by intros [= <-]. Qed.

Lemma js_every_valid_true (o : object) :
  js_every valid_accumulator o.*2 = Return true →
  Forall (λ p, supported (operator_key p.2) = true) o.
Proof.
  induction o as [|[k v] o IH]; [constructor|].
  rewrite fmap_cons. cbn [js_every snd].
  destruct (valid_accumulator v) as [b|e] eqn:Hv;
    cbn [mbind result_bind]; [|discriminate].
  apply valid_accumulator_Return in Hv as ->.
  destruct (supported (operator_key v)) eqn:Hs; [|discriminate].
  intros H. constructor; [done | by apply IH].
Qed.

Lemma mapM_tuple_of_Return (o : object) tuples :
  Forall (λ p, supported (operator_key p.2) = true) o →
  mapM tuple_of o = Return tuples →
  Forall (λ p, rejected_operand (operand p.2) = false) o.
Proof.
  intros Hs. revert tuples.
  induction Hs as [|p o Hp _ IH]; intros tuples; [constructor|].
  cbn [mapM].
  destruct (rejected_operand (operand p.2)) eqn:Hr.
  { rewrite (tuple_of_rejected p Hp Hr). cbn [mbind result_bind].
    discriminate. }
  rewrite (tuple_of_accepted p Hp Hr). cbn [mbind result_bind].
  destruct (mapM tuple_of o) as [ts|e] eqn:Hm;
    cbn [mbind result_bind]; [|discriminate].
  intros _. constructor; [done | by eapply IH].
Qed.

(** What a returned list of tuples tells. *)
Lemma checkCompatibility_Return_inv props more rest tuples :
  checkCompatibility (JObj (("$group", JObj props) :: more) :: rest)
    = Return tuples →
  Forall (λ p, supported (operator_key p.2) = true) (group_fields props)
  ∧ Forall (λ p, rejected_operand (operand p.2) = false) (group_fields props)
  ∧ tuples = map expected_tuple (group_fields props).
Proof.
  rewrite checkCompatibility_group. unfold scan.
  change (values (JObj ?o)) with o.*2. change (toPairs (JObj ?o)) with o.
  destruct (js_every valid_accumulator (group_fields props).*2)
    as [[|]|e] eqn:Hv; cbn [mbind result_bind negb]; try discriminate.
  apply js_every_valid_true in Hv.
  intros Hm. pose proof (mapM_tuple_of_Return _ _ Hv Hm) as Hr.
  split; [done|]. split; [done|].
  rewrite (mapM_Return_Forall tuple_of expected_tuple) in Hm.
  - by injection Hm as <-.
  - apply Forall_forall. intros p Hp. apply tuple_of_accepted.
    + by eapply Forall_forall in Hv.
    + by eapply Forall_forall in Hr.
Qed.

(** X2: a pipeline that starts with a grouping stage is accepted exactly
    when every remaining accumulator has a supported first operator and an
    operand that is a string, an object, an array or the number 1; the
    tuples returned are then those read off the fields, in field order. *)
Theorem checkCompatibility_returns_iff props more rest tuples :
  checkCompatibility (JObj (("$group", JObj props) :: more) :: rest)
    = Return tuples
  ↔ Forall (λ p, supported (operator_key p.2) = true) (group_fields props)
    ∧ Forall (λ p, rejected_operand (operand p.2) = false) (group_fields props)
    ∧ tuples = map expected_tuple (group_fields props).
Proof.
  split; [apply checkCompatibility_Return_inv|].
  intros (Hs & Hr & ->).
  rewrite checkCompatibility_group, scan_supported by done.
  apply mapM_Return_Forall, Forall_forall. intros p Hp.
  apply tuple_of_accepted.
  - by eapply Forall_forall in Hs.
  - by eapply Forall_forall in Hr.
Qed.

Lemma supported_slice val :
  supported (operator_key val) = true →
  js_slice1 (default "" (operator_key val)) ∈ ["sum"; "min"; "max"; "avg"].
Proof.
  destruct (operator_key val) as [k|]; [|discriminate]. simpl.
  rewrite !orb_true_iff, !String.eqb_eq.
  intros [->|[->|[->|[->|[=]]]]];
    apply (bool_decide_unpack _); vm_compute; reflexivity.
Qed.

Lemma expected_tuple_operator p :
  supported (operator_key p.2) = true →
  tuple_operator (expected_tuple p) ∈ tuple_operators.
Proof.
  intros Hs%supported_slice. unfold expected_tuple, tuple_operators.
  rewrite !elem_of_cons in Hs. rewrite elem_of_nil in Hs.
  destruct (operand p.2); simpl; try (apply (bool_decide_unpack _); vm_compute; reflexivity).
  destruct Hs as [->|[->|[->|[->|[]]]]]; apply (bool_decide_unpack _); vm_compute; reflexivity.
Qed.

Lemma expected_tuple_field p : tuple_field (expected_tuple p) = p.1.
Proof. unfold expected_tuple. by destruct (operand p.2). Qed.

Lemma group_fields_no_id props : "_id" ∉ (group_fields props).*1.
Proof.
  unfold group_fields. rewrite obj_delete_keys.
  intros [Hne _]%list_elem_of_filter. by apply Hne.
Qed.

Lemma checkCompatibility_tuples_operators props more rest tuples :
  checkCompatibility (JObj (("$group", JObj props) :: more) :: rest)
    = Return tuples →
  Forall (λ t, tuple_operator t ∈ tuple_operators) tuples.
Proof.
  intros (Hs & _ & ->)%checkCompatibility_Return_inv.
  apply Forall_forall. intros t (p & -> & Hp)%list_elem_of_fmap.
  apply expected_tuple_operator. by eapply Forall_forall in Hs.
Qed.

Lemma checkCompatibility_tuples_fields props more rest tuples :
  checkCompatibility (JObj (("$group", JObj props) :: more) :: rest)
    = Return tuples →
  tuple_field <$> tuples = (group_fields props).*1.
Proof.
  intros (_ & _ & ->)%checkCompatibility_Return_inv.
  change (map expected_tuple (group_fields props))
    with (expected_tuple <$> group_fields props).
  rewrite <- list_fmap_compose. apply list_fmap_ext.
  intros i p _. apply expected_tuple_field.
Qed.

(** X3: the tuples returned for a grouping stage name its fields other than
    [_id], one tuple per field and in the order of the fields, and every
    tuple's operator is one of sum, min, max, avg and count. *)
Theorem checkCompatibility_tuples_shape props more rest tuples :
  checkCompatibility (JObj (("$group", JObj props) :: more) :: rest)
    = Return tuples →
  tuple_field <$> tuples = (group_fields props).*1
  ∧ ("_id" ∉ tuple_field <$> tuples)
  ∧ Forall (λ t, tuple_operator t ∈ tuple_operators) tuples.
Proof.
  intros H.
  pose proof (checkCompatibility_tuples_fields _ _ _ _ H) as Hf.
  split; [done|]. split.
  - rewrite Hf. apply group_fields_no_id.
  - by eapply checkCompatibility_tuples_operators.
Qed.

Lemma checkCompatibility_tuples_shape_witness :
  tuple_field <$> [("avg_weight", "avg", "Unladen Weight")]
    = (group_fields
         [("_id", JStr "$Model Year");
          ("avg_weight", JObj [("$avg", JStr "$Unladen Weight")])]).*1
  ∧ ("_id" ∉ tuple_field <$> [("avg_weight", "avg", "Unladen Weight")])
  ∧ Forall (λ t, tuple_operator t ∈ tuple_operators)
      [("avg_weight", "avg", "Unladen Weight")].
Proof.
  apply (checkCompatibility_tuples_shape
           [("_id", JStr "$Model Year");
            ("avg_weight", JObj [("$avg", JStr "$Unladen Weight")])]
           [] (drop 1 p2)).
  reflexivity.
Defined.

(** ** What [queryCube] throws *)

Lemma createPipeline_only_TypeError ppl tuples :
  only_TypeError (createPipeline ppl tuples).
Proof.
  unfold createPipeline.
  apply only_TypeError_bind; [apply get_field_only_TypeError|]. intros g.
  apply only_TypeError_bind; [apply get_field_only_TypeError|]. intros i.
  apply only_TypeError_Return.
Qed.

Lemma checkCompatibility_throws ppl e :
  checkCompatibility ppl = Throw e →
  e = TypeError ∨ e = Error msg_not_group ∨ e = Error msg_unsupported.
Proof.
  unfold checkCompatibility.
  destruct (Object_keys (js_nth ppl 0)) as [keys|e'] eqn:Hk;
    cbn [mbind result_bind].
  2:{ intros [= <-]. left. by apply Object_keys_only_TypeError in Hk. }
  case_bool_decide; [intros [= <-]; auto|].
  destruct (get_field _ _) as [g|e'] eqn:Hg; cbn [mbind result_bind].
  2:{ intros [= <-]. left. by apply get_field_only_TypeError in Hg. }
  destruct (js_delete g "_id") as [g'|e'] eqn:Hd; cbn [mbind result_bind].
  2:{ intros [= <-]. left. by apply js_delete_only_TypeError in Hd. }
  intros [->| ->]%scan_throws; auto.
Qed.

(** X4: [queryCube] throws nothing but the two "pipeline incompatible"
    errors of [checkCompatibility] and the runtime's [TypeError]; rewriting
    itself adds no error of its own. *)
Theorem queryCube_throws pipeline e :
  queryCube pipeline = Throw e →
  e = TypeError ∨ e = Error msg_not_group ∨ e = Error msg_unsupported.
Proof.
  unfold queryCube.
  destruct (checkCompatibility pipeline) as [tuples|e'] eqn:Hc;
    cbn [mbind result_bind].
  - intros H. left. exact (createPipeline_only_TypeError pipeline tuples e H).
  - intros [= <-]. by apply (checkCompatibility_throws pipeline).
Qed.

Lemma queryCube_throws_witness :
  Error msg_unsupported = TypeError
  ∨ Error msg_unsupported = Error msg_not_group
  ∨ Error msg_unsupported = Error msg_unsupported.
Proof.
  apply (queryCube_throws
           [JObj [("$group", JObj [("_id", JNull);
                                   ("x", JObj [("$first", JStr "$a")])])]]).
  reflexivity.
Defined.

(** ** Accepted pipelines are rewritten *)

Lemma obj_get_absent k (o : object) : k ∉ o.*1 → obj_get k o = JUndefined.
Proof.
  induction o as [|[k' v] o IH]; [done|]. rewrite fmap_cons. simpl.
  intros [Hne Hk]%not_elem_of_cons.
  destruct (String.eqb k' k) eqn:E; [|by apply IH].
  by apply String.eqb_eq in E.
Qed.

Lemma clone_props_keys k (o : object) :
  k ∈ (clone_props o).*1 → k ∈ o.*1.
Proof.
  induction o as [|[k' x] o IH]; [done|].
  rewrite clone_props_cons, fmap_cons. simpl.
  destruct x; rewrite ?fmap_cons, ?elem_of_cons; simpl; intuition.
Qed.

(** The first stage of an accepted pipeline. *)
Lemma checkCompatibility_first_stage ppl tuples :
  checkCompatibility ppl = Return tuples →
  ∃ g more rest, ppl = JObj (("$group", g) :: more) :: rest.
Proof.
  unfold checkCompatibility.
  destruct ppl as [|stage rest]; [discriminate|].
  change (js_nth (stage :: rest) 0) with stage.
  destruct (Object_keys stage) as [keys|e] eqn:Hk;
    cbn [mbind result_bind]; [|discriminate].
  case_bool_decide as Hne; [discriminate|]. intros _.
  destruct stage as [ | | b | z | s | l | o ]; try discriminate;
    injection Hk as <-; try discriminate Hne.
  - destruct s; [discriminate|]. vm_compute in Hne. discriminate.
  - destruct l; [discriminate|]. vm_compute in Hne. discriminate.
  - destruct o as [|[k g] more]; [discriminate|].
    injection Hne as ->. eauto.
Qed.

(** X5: [createPipeline] does not fail on a pipeline that
    [checkCompatibility] accepted, so [queryCube] fails only where
    [checkCompatibility] does.  (The first stage is an object with distinct
    keys.) *)
Theorem createPipeline_after_checkCompatibility ppl tuples :
  distinct_keys (js_nth ppl 0) →
  checkCompatibility ppl = Return tuples →
  ∃ out, queryCube ppl = Return out.
Proof.
  intros Hdist Hc.
  destruct (checkCompatibility_first_stage _ _ Hc) as (g & more & rest & ->).
  unfold queryCube. rewrite Hc. cbn [mbind result_bind].
  simpl in Hdist. apply NoDup_cons in Hdist as [Hg _].
  revert Hc. unfold checkCompatibility.
  change (Object_keys (js_nth (JObj (("$group", g) :: more) :: rest) 0))
    with (Return ("$group" :: more.*1)).
  cbn [mbind result_bind]. rewrite bool_decide_eq_false_2 by (by intros []).
  change (js_nth (clone_array (JObj (("$group", g) :: more) :: rest)) 0)
    with (JObj (clone_props (("$group", g) :: more))).
  rewrite clone_props_cons.
  assert (Habs : obj_get "$group" (clone_props more) = JUndefined).
  { apply obj_get_absent. intros Hin%clone_props_keys. done. }
  unfold createPipeline.
  change (js_nth (JObj (("$group", g) :: more) :: rest) 0)
    with (JObj (("$group", g) :: more)).
  destruct g as [ | | b | z | s | l | o ]; simpl; rewrite ?Habs; simpl;
    try discriminate; eauto.
Qed.

Lemma createPipeline_after_checkCompatibility_witness :
  ∃ out, queryCube p2 = Return out.
Proof.
  apply (createPipeline_after_checkCompatibility
           p2 [("avg_weight", "avg", "Unladen Weight")]).
  - apply (bool_decide_unpack _). vm_compute. reflexivity.
  - reflexivity.
Defined.

(** ** The stages written by [createPipeline] *)

Lemma obj_assign_keys k' k v (o : object) :
  k' ∈ (obj_assign k v o).*1 ↔ (k' = k ∧ k ≠ "__proto__") ∨ k' ∈ o.*1.
Proof.
  unfold obj_assign. destruct (String.eqb k "__proto__") eqn:E.
  - apply String.eqb_eq in E. split; [by right | by intros [[_ ?]|?]].
  - apply String.eqb_neq in E. rewrite obj_define_keys.
    split; (intros [?|?]; [left | by right]); [done | by destruct H].
Qed.

Lemma obj_get_define_eq k v (o : object) : obj_get k (obj_define k v o) = v.
Proof.
  unfold obj_define. destruct (has_key k o) eqn:Hk.
  - apply has_key_elem in Hk.
    induction o as [|[k1 v1] o IH]; [by apply elem_of_nil in Hk|].
    simpl. destruct (String.eqb k1 k) eqn:E; simpl.
    + by rewrite String.eqb_refl.
    + rewrite E. apply IH. rewrite fmap_cons in Hk.
      apply elem_of_cons in Hk as [->|Hk]; [|done].
      simpl in E. by rewrite String.eqb_refl in E.
  - destruct (array_index k) as [n|].
    + induction o as [|[k1 v1] o IH]; simpl; [by rewrite String.eqb_refl|].
      apply has_key_false in Hk. rewrite fmap_cons in Hk.
      apply not_elem_of_cons in Hk as [Hne Hk]. simpl in Hne.
      destruct (array_index k1) as [n1|]; [|simpl; by rewrite String.eqb_refl].
      destruct (n1 <? n)%N; simpl; [|by rewrite String.eqb_refl].
      assert (String.eqb k1 k = false) as -> by (apply String.eqb_neq; done).
      apply IH. by apply has_key_false.
    + induction o as [|[k1 v1] o IH]; simpl; [by rewrite String.eqb_refl|].
      apply has_key_false in Hk. rewrite fmap_cons in Hk.
      apply not_elem_of_cons in Hk as [Hne Hk]. simpl in Hne.
      assert (String.eqb k1 k = false) as -> by (apply String.eqb_neq; done).
      apply IH. by apply has_key_false.
Qed.

Lemma obj_get_assign_eq k v (o : object) :
  k ≠ "__proto__" → obj_get k (obj_assign k v o) = v.
Proof.
  intros Hk%String.eqb_neq. unfold obj_assign. rewrite Hk.
  apply obj_get_define_eq.
Qed.

Lemma obj_get_assign_ne k k' v (o : object) :
  k ≠ k' → obj_get k (obj_assign k' v o) = obj_get k o.
Proof.
  intros Hne. unfold obj_assign. destruct (String.eqb k' "__proto__"); [done|].
  by apply obj_get_define_ne.
Qed.

Lemma measGroup_add_tuple b f a m :
  measGroup (add_tuple b (f, a, m)) =
  if String.eqb a "count"
  then obj_assign "count" (JObj [("$sum", JStr "$count")]) (measGroup b)
  else if String.eqb a "avg"
       then obj_assign "count" (JObj [("$sum", JStr "$count")])
              (obj_assign (m +:+ "_sum")
                 (JObj [("$sum", JStr ("$" +:+ m +:+ ".sum"))]) (measGroup b))
       else obj_assign (m +:+ "_" +:+ a)
              (JObj [("$" +:+ a, JStr ("$" +:+ m +:+ "." +:+ a))])
              (measGroup b).
Proof.
  unfold add_tuple.
  destruct (String.eqb a "count"); [done|]. by destruct (String.eqb a "avg").
Qed.

Lemma measProject_add_tuple b f a m :
  measProject (add_tuple b (f, a, m)) =
  if String.eqb a "count"
  then obj_assign f (JStr "$count")
         (obj_assign f (JStr ("$" +:+ m +:+ "_" +:+ a)) (measProject b))
  else obj_assign f (JStr ("$" +:+ m +:+ "_" +:+ a)) (measProject b).
Proof.
  unfold add_tuple.
  destruct (String.eqb a "count"); [done|]. by destruct (String.eqb a "avg").
Qed.

Lemma measProject_add_tuple_keys b t k :
  k ∈ (measProject (add_tuple b t)).*1
  ↔ (k = tuple_field t ∧ k ≠ "__proto__") ∨ k ∈ (measProject b).*1.
Proof.
  destruct t as [[f a] m]. rewrite measProject_add_tuple.
  unfold tuple_field. simpl.
  destruct (String.eqb a "count"); rewrite !obj_assign_keys;
    intuition congruence.
Qed.

Lemma measProject_add_tuple_get b t :
  tuple_field t ≠ "__proto__" →
  obj_get (tuple_field t) (measProject (add_tuple b t))
  = JStr ("$" +:+ projected_field t).
Proof.
  destruct t as [[f a] m]. change (tuple_field (f, a, m)) with f. intros Hf.
  rewrite measProject_add_tuple. unfold projected_field.
  destruct (String.eqb a "count"); rewrite obj_get_assign_eq by done;
    reflexivity.
Qed.

Lemma measProject_add_tuple_get_ne b t k :
  k ≠ tuple_field t →
  obj_get k (measProject (add_tuple b t)) = obj_get k (measProject b).
Proof.
  destruct t as [[f a] m]. change (tuple_field (f, a, m)) with f. intros Hf.
  rewrite measProject_add_tuple.
  destruct (String.eqb a "count"); by rewrite !obj_get_assign_ne.
Qed.

Lemma measProject_keys tuples b k :
  k ∈ (measProject (fold_left add_tuple tuples b)).*1
  ↔ k ∈ (measProject b).*1
    ∨ (k ≠ "__proto__" ∧ k ∈ tuple_field <$> tuples).
Proof.
  revert b. induction tuples as [|t tuples IH]; intros b.
  - simpl. rewrite elem_of_nil. tauto.
  - cbn [fold_left]. rewrite IH, measProject_add_tuple_keys, fmap_cons.
    rewrite elem_of_cons. intuition congruence.
Qed.

Lemma measProject_get tuples b t :
  NoDup (tuple_field <$> tuples) → t ∈ tuples →
  tuple_field t ≠ "__proto__" →
  obj_get (tuple_field t) (measProject (fold_left add_tuple tuples b))
  = JStr ("$" +:+ projected_field t).
Proof.
  intros Hnd Hin Hf. revert Hnd Hin.
  induction tuples as [|x l IH] using rev_ind; intros Hnd Hin.
  - by apply elem_of_nil in Hin.
  - rewrite fold_left_app. cbn [fold_left].
    rewrite fmap_app in Hnd. apply NoDup_app in Hnd as (Hl & Hdisj & _).
    apply elem_of_app in Hin as [Hin | ->%list_elem_of_singleton].
    + rewrite measProject_add_tuple_get_ne; [by apply IH|].
      intros Heq. apply (Hdisj (tuple_field t)).
      * by apply list_elem_of_fmap_2.
      * rewrite Heq. apply list_elem_of_here.
    + by apply measProject_add_tuple_get.
Qed.

Lemma measGroup_add_tuple_keys b t k :
  k ∈ (measGroup (add_tuple b t)).*1
  ↔ k ∈ (measGroup b).*1 ∨ (k ≠ "__proto__" ∧ k ∈ grouped_fields t).
Proof.
  destruct t as [[f a] m]. rewrite measGroup_add_tuple. unfold grouped_fields.
  destruct (String.eqb a "count"); [|destruct (String.eqb a "avg")];
    rewrite !obj_assign_keys, ?elem_of_cons, ?elem_of_nil;
    intuition congruence.
Qed.

Lemma measGroup_keys tuples b k :
  k ∈ (measGroup (fold_left add_tuple tuples b)).*1
  ↔ k ∈ (measGroup b).*1
    ∨ (k ≠ "__proto__" ∧ ∃ t, t ∈ tuples ∧ k ∈ grouped_fields t).
Proof.
  revert b. induction tuples as [|t tuples IH]; intros b.
  - simpl. split; [by left|]. intros [?|(_ & t & Ht & _)]; [done|].
    by apply elem_of_nil in Ht.
  - cbn [fold_left]. rewrite IH, measGroup_add_tuple_keys. split.
    + intros [[?|[? ?]]|(? & t' & ? & ?)]; [by left| |].
      * right. split; [done|]. exists t. split; [apply list_elem_of_here|done].
      * right. split; [done|]. exists t'.
        split; [by apply list_elem_of_further|done].
    + intros [?|(? & t' & [->|?]%elem_of_cons & ?)]; [by left; left| |].
      * left. by right.
      * right. split; [done|]. by exists t'.
Qed.

Lemma measSet_nil_iff tuples b :
  measSet (fold_left add_tuple tuples b) = []
  ↔ measSet b = [] ∧ existsb is_avg tuples = false.
Proof.
  revert b. induction tuples as [|[[f a] m] tuples IH]; intros b.
  - simpl. tauto.
  - cbn [fold_left existsb]. rewrite IH, measSet_add_tuple.
    change (is_avg (f, a, m)) with (String.eqb a "avg").
    destruct (String.eqb a "count") eqn:Ec.
    + apply String.eqb_eq in Ec as ->.
      change (String.eqb "count" "avg") with false. cbn [orb]. tauto.
    + destruct (String.eqb a "avg"); cbn [orb]; [|tauto].
      split; [|by intros [_ ?]]. intros [Hnil _]. exfalso.
      assert (Hk : m +:+ "_avg" ∈ (obj_assign (m +:+ "_avg") (naive_divide m)
                                     (measSet b)).*1).
      { apply obj_assign_keys. left. split; [done|].
        apply String.eqb_neq, avg_key_not_proto. }
      rewrite Hnil in Hk. by apply elem_of_nil in Hk.
Qed.

Lemma obj_spread_keys_iff k (a b : object) :
  k ∈ (obj_spread a b).*1 ↔ k ∈ a.*1 ∨ k ∈ b.*1.
Proof.
  unfold obj_spread. revert a. induction b as [|[k' v] b IH]; intros a.
  - simpl. rewrite elem_of_nil. tauto.
  - cbn [fold_left]. rewrite IH, obj_define_keys, fmap_cons, elem_of_cons.
    simpl. tauto.
Qed.

(** The pipeline [createPipeline] returns, in terms of the builders. *)
Lemma createPipeline_Return ppl tuples out :
  createPipeline ppl tuples = Return out →
  ∃ oldGroup _id,
    get_field (js_nth ppl 0) "$group" = Return oldGroup
    ∧ get_field oldGroup "_id" = Return _id
    ∧ out =
        JObj [("$group",
               JObj (obj_spread [("_id", _id)]
                       (measGroup (fold_left add_tuple tuples empty_builders))))]
        :: (if isEmpty (measSet (fold_left add_tuple tuples empty_builders))
            then []
            else [JObj [("$set",
                         JObj (measSet (fold_left add_tuple tuples
                                          empty_builders)))]])
        ++ JObj [("$project",
                  JObj (measProject (fold_left add_tuple tuples
                                       empty_builders)))]
        :: drop 1 ppl.
Proof.
  unfold createPipeline.
  destruct (get_field (js_nth ppl 0) "$group") as [g|] eqn:Hg;
    [|discriminate].
  cbn [mbind result_bind].
  destruct (get_field g "_id") as [i|] eqn:Hi; [|discriminate].
  cbn [mbind result_bind]. intros [= <-]. exists g, i.
  split; [reflexivity|]. split; [exact Hi | reflexivity].
Qed.

(** X6: a rewritten pipeline is a grouping stage, then a [$set] stage
    exactly when some tuple is an average, then a projection stage, then the
    stages of the original pipeline after the first, unchanged and in
    order. *)
Theorem createPipeline_stages ppl tuples out :
  createPipeline ppl tuples = Return out →
  ∃ group set project,
    out = JObj [("$group", JObj group)]
          :: (if existsb is_avg tuples then [JObj [("$set", JObj set)]] else [])
          ++ JObj [("$project", JObj project)] :: drop 1 ppl.
Proof.
  intros (g & i & _ & _ & ->)%createPipeline_Return.
  eexists _, (measSet (fold_left add_tuple tuples empty_builders)), _.
  f_equal. f_equal.
  pose proof (measSet_nil_iff tuples empty_builders) as Hnil.
  destruct (existsb is_avg tuples);
    destruct (measSet (fold_left add_tuple tuples empty_builders)); try done.
  - destruct Hnil as [Hn _]. by destruct (Hn eq_refl).
  - destruct Hnil as [_ Hn]. by specialize (Hn (conj eq_refl eq_refl)).
Qed.

Lemma createPipeline_stages_witness :
  ∃ group set project,
    [ JObj [("$group", JObj [("_id", JNull);
                             ("count", JObj [("$sum", JStr "$count")])])];
      JObj [("$project", JObj [("_id", JNum 1); ("count", JStr "$count")])] ]
    = JObj [("$group", JObj group)]
      :: (if existsb is_avg [("count", "count", "count")]
          then [JObj [("$set", JObj set)]] else [])
      ++ JObj [("$project", JObj project)] :: drop 1 p1.
Proof.
  apply (createPipeline_stages p1 [("count", "count", "count")]).
  reflexivity.
Defined.

Lemma suffix_not_id (m s : string) : 4 ≤ String.length s → m +:+ s ≠ "_id".
Proof.
  intros Hlen Heq.
  assert (Hl : String.length (m +:+ s) = 3) by by rewrite Heq.
  rewrite string_length_app in Hl. lia.
Qed.

Lemma grouped_fields_not_id t :
  tuple_operator t ∈ tuple_operators → "_id" ∉ grouped_fields t.
Proof.
  destruct t as [[f a] m]. unfold tuple_operator, tuple_operators. cbn [fst snd].
  rewrite !elem_of_cons, elem_of_nil. unfold grouped_fields.
  intros [->|[->|[->|[->|[->|[]]]]]]; cbn;
    rewrite ?elem_of_cons, elem_of_nil;
    intros H; repeat (destruct H as [H|H]); try done;
    symmetry in H; revert H; apply suffix_not_id; simpl; lia.
Qed.

(** X7: the grouping stage of a rewritten pipeline groups by the key
    expression of the original grouping stage. *)
Theorem queryCube_keeps_group_key props more rest out :
  queryCube (JObj (("$group", JObj props) :: more) :: rest) = Return out →
  ∃ group, out !! 0%nat = Some (JObj [("$group", JObj group)])
           ∧ obj_get "_id" group = obj_get "_id" props.
Proof.
  unfold queryCube.
  destruct (checkCompatibility _) as [tuples|] eqn:Hc; [|discriminate].
  cbn [mbind result_bind].
  intros (g & i & Hg & Hi & ->)%createPipeline_Return.
  injection Hg as <-. injection Hi as <-.
  eexists. split; [reflexivity|].
  rewrite obj_get_spread_ne; [reflexivity|].
  intros [Hin|(_ & t & Ht & Hin)]%measGroup_keys.
  - by apply elem_of_nil in Hin.
  - revert Hin. apply grouped_fields_not_id.
    apply checkCompatibility_tuples_operators in Hc.
    by eapply Forall_forall in Hc.
Qed.

Lemma queryCube_keeps_group_key_witness :
  ∃ group,
    [ JObj [("$group", JObj [("_id", JNull);
                             ("count", JObj [("$sum", JStr "$count")])])];
      JObj [("$project", JObj [("_id", JNum 1); ("count", JStr "$count")])] ]
      !! 0%nat = Some (JObj [("$group", JObj group)])
    ∧ obj_get "_id" group
      = obj_get "_id" [("_id", JNull); ("count", JObj [("$sum", JNum 1)])].
Proof.
  apply (queryCube_keeps_group_key
           [("_id", JNull); ("count", JObj [("$sum", JNum 1)])] [] []).
  reflexivity.
Defined.

Lemma measProject_get_other tuples b k :
  k ∉ tuple_field <$> tuples →
  obj_get k (measProject (fold_left add_tuple tuples b))
  = obj_get k (measProject b).
Proof.
  revert b. induction tuples as [|t tuples IH]; intros b Hk; [done|].
  rewrite fmap_cons in Hk. apply not_elem_of_cons in Hk as [Hne Hk].
  cbn [fold_left]. rewrite IH by done.
  by apply measProject_add_tuple_get_ne.
Qed.

(** X8: the projection stage of a rewritten pipeline comes just before the
    original pipeline's later stages; it keeps [_id] and has, besides, the
    very output fields of the original grouping stage (a field named
    [__proto__] excepted, which an assignment cannot create). *)
Theorem queryCube_projection_fields props more rest out :
  queryCube (JObj (("$group", JObj props) :: more) :: rest) = Return out →
  ∃ pre project,
    out = pre ++ JObj [("$project", JObj project)] :: rest
    ∧ obj_get "_id" project = JNum 1
    ∧ ∀ k, k ∈ project.*1
           ↔ k = "_id" ∨ (k ≠ "__proto__" ∧ k ∈ (group_fields props).*1).
Proof.
  unfold queryCube.
  destruct (checkCompatibility _) as [tuples|] eqn:Hc; [|discriminate].
  cbn [mbind result_bind].
  intros (g & i & _ & _ & ->)%createPipeline_Return.
  pose proof (checkCompatibility_tuples_fields _ _ _ _ Hc) as Hf.
  eexists (_ :: _), _. split; [reflexivity|]. split.
  - rewrite measProject_get_other; [done|].
    rewrite Hf. apply group_fields_no_id.
  - intros k. rewrite measProject_keys, Hf. simpl.
    rewrite list_elem_of_singleton. tauto.
Qed.

Lemma queryCube_projection_fields_witness :
  ∃ pre project,
    [ JObj [("$group", JObj [("_id", JNull);
                             ("count", JObj [("$sum", JStr "$count")])])];
      JObj [("$project", JObj [("_id", JNum 1); ("count", JStr "$count")])] ]
    = pre ++ JObj [("$project", JObj project)] :: []
    ∧ obj_get "_id" project = JNum 1
    ∧ ∀ k, k ∈ project.*1
           ↔ k = "_id"
             ∨ (k ≠ "__proto__"
                ∧ k ∈ (group_fields
                         [("_id", JNull);
                          ("count", JObj [("$sum", JNum 1)])]).*1).
Proof.
  apply (queryCube_projection_fields
           [("_id", JNull); ("count", JObj [("$sum", JNum 1)])] [] []).
  reflexivity.
Defined.

(** X9: when the tuples name distinct output fields, the projection maps
    each tuple's output field to a reference to the field computed for it:
    [$count] for a count, [$m_a] for the operator [a] on the measure [m]
    (an output field named [__proto__] excepted, which an assignment cannot
    create). *)
Theorem createPipeline_projects_tuple ppl tuples out t :
  createPipeline ppl tuples = Return out →
  NoDup (tuple_field <$> tuples) → t ∈ tuples →
  tuple_field t ≠ "__proto__" →
  ∃ pre project,
    out = pre ++ JObj [("$project", JObj project)] :: drop 1 ppl
    ∧ obj_get (tuple_field t) project = JStr ("$" +:+ projected_field t).
Proof.
  intros (g & i & _ & _ & ->)%createPipeline_Return Hnd Hin Hf.
  eexists (_ :: _), _. split; [reflexivity|]. by apply measProject_get.
Qed.

Lemma createPipeline_projects_tuple_witness :
  ∃ pre project,
    [ JObj [("$group",
             JObj [("_id", JStr "$Model Year");
                   ("Unladen Weight_sum",
                      JObj [("$sum", JStr "$Unladen Weight.sum")]);
                   ("count", JObj [("$sum", JStr "$count")])])];
      JObj [("$set",
             JObj [("Unladen Weight_avg", naive_divide "Unladen Weight")])];
      JObj [("$project",
             JObj [("_id", JNum 1);
                   ("avg_weight", JStr "$Unladen Weight_avg")])];
      JObj [("$sort", JObj [("avg_weight", JNum (-1))])];
      JObj [("$limit", JNum 3)] ]
    = pre ++ JObj [("$project", JObj project)] :: drop 1 p2
    ∧ obj_get (tuple_field ("avg_weight", "avg", "Unladen Weight")) project
      = JStr ("$" +:+ projected_field ("avg_weight", "avg", "Unladen Weight")).
Proof.
  apply (createPipeline_projects_tuple
           p2 [("avg_weight", "avg", "Unladen Weight")]).
  - reflexivity.
  - apply (bool_decide_unpack _). vm_compute. reflexivity.
  - apply list_elem_of_here.
  - discriminate.
Defined.

Lemma sum_key_not_proto m : m +:+ "_sum" ≠ "__proto__".
Proof.
  intros H. change "__proto__" with ("__pro" +:+ "to__") in H.
  by apply app_suffix_inj in H as [_ [=]].
Qed.

Lemma is_avg_tuple t :
  is_avg t = true → t = (tuple_field t, "avg", tuple_measure t).
Proof.
  destruct t as [[f a] m]. unfold is_avg, tuple_operator. cbn [fst snd].
  by intros ->%String.eqb_eq.
Qed.

(** X10: every field that the projection stage, or the division of the
    [$set] stage, reads is written by an earlier stage of the rewritten
    pipeline: the grouping stage computes the fields a tuple needs, and for
    an average the [$set] stage, second in the pipeline, computes
    [m_avg] (for a tuple whose projected field [m_a] is not the name
    [__proto__], which an assignment cannot create). *)
Theorem createPipeline_references_defined ppl tuples out t :
  createPipeline ppl tuples = Return out →
  t ∈ tuples →
  projected_field t ≠ "__proto__" →
  ∃ group,
    out !! 0%nat = Some (JObj [("$group", JObj group)])
    ∧ Forall (λ k, k ∈ group.*1) (grouped_fields t)
    ∧ if is_avg t
      then ∃ set, out !! 1%nat = Some (JObj [("$set", JObj set)])
                  ∧ projected_field t ∈ set.*1
      else projected_field t ∈ group.*1.
Proof.
  intros (g & i & _ & _ & ->)%createPipeline_Return Hin Hproto.
  set (b := fold_left add_tuple tuples empty_builders).
  eexists. split; [reflexivity|].
  assert (Hgroup : Forall (λ k, k ∈ (obj_spread [("_id", i)] (measGroup b)).*1)
                     (grouped_fields t)).
  { apply Forall_forall. intros k Hk.
    apply obj_spread_keys_iff. right. apply measGroup_keys. right.
    split; [|by exists t].
    destruct t as [[f a] m]. unfold grouped_fields, projected_field in *.
    destruct (String.eqb a "count").
    - apply list_elem_of_singleton in Hk as ->. discriminate.
    - destruct (String.eqb a "avg").
      + apply elem_of_cons in Hk as [->|Hk]; [apply sum_key_not_proto|].
        apply list_elem_of_singleton in Hk as ->. discriminate.
      + by apply list_elem_of_singleton in Hk as ->. }
  split; [done|].
  destruct (is_avg t) eqn:Havg.
  - apply is_avg_tuple in Havg.
    assert (Hkey : tuple_measure t +:+ "_avg" ∈ (measSet b).*1).
    { eapply measSet_avg_key. by rewrite <- Havg. }
    exists (measSet b). split.
    + destruct (measSet b); [by apply elem_of_nil in Hkey | done].
    + by rewrite Havg.
  - destruct t as [[f a] m]. unfold is_avg, tuple_operator in Havg.
    cbn [fst snd] in Havg.
    eapply Forall_forall in Hgroup; [exact Hgroup|].
    unfold grouped_fields, projected_field. rewrite Havg.
    destruct (String.eqb a "count"); apply list_elem_of_here.
Qed.

Lemma createPipeline_references_defined_witness :
  ∃ group,
    [ JObj [("$group",
             JObj [("_id", JStr "$Model Year");
                   ("Unladen Weight_sum",
                      JObj [("$sum", JStr "$Unladen Weight.sum")]);
                   ("count", JObj [("$sum", JStr "$count")])])];
      JObj [("$set",
             JObj [("Unladen Weight_avg", naive_divide "Unladen Weight")])];
      JObj [("$project",
             JObj [("_id", JNum 1);
                   ("avg_weight", JStr "$Unladen Weight_avg")])];
      JObj [("$sort", JObj [("avg_weight", JNum (-1))])];
      JObj [("$limit", JNum 3)] ] !! 0%nat
      = Some (JObj [("$group", JObj group)])
    ∧ Forall (λ k, k ∈ group.*1)
        (grouped_fields ("avg_weight", "avg", "Unladen Weight"))
    ∧ if is_avg ("avg_weight", "avg", "Unladen Weight")
      then ∃ set,
             [ JObj [("$group",
                      JObj [("_id", JStr "$Model Year");
                            ("Unladen Weight_sum",
                               JObj [("$sum", JStr "$Unladen Weight.sum")]);
                            ("count", JObj [("$sum", JStr "$count")])])];
               JObj [("$set",
                      JObj [("Unladen Weight_avg",
                             naive_divide "Unladen Weight")])];
               JObj [("$project",
                      JObj [("_id", JNum 1);
                            ("avg_weight", JStr "$Unladen Weight_avg")])];
               JObj [("$sort", JObj [("avg_weight", JNum (-1))])];
               JObj [("$limit", JNum 3)] ] !! 1%nat
             = Some (JObj [("$set", JObj set)])
             ∧ projected_field ("avg_weight", "avg", "Unladen Weight")
               ∈ set.*1
      else projected_field ("avg_weight", "avg", "Unladen Weight")
           ∈ group.*1.
Proof.
  apply (createPipeline_references_defined
           p2 [("avg_weight", "avg", "Unladen Weight")]).
  - reflexivity.
  - apply list_elem_of_here.
  - discriminate.
Defined.

(** ** The fields written by [createCube] *)

Lemma obj_define_NoDup k v (o : object) :
  NoDup o.*1 → NoDup (obj_define k v o).*1.
Proof.
  intros Hnd. destruct (decide (k ∈ o.*1)) as [Hk|Hk].
  - by rewrite obj_define_old.
  - rewrite (obj_define_new k v o Hk), fmap_cons. by apply NoDup_cons.
Qed.

Lemma obj_spread_NoDup (a b : object) :
  NoDup a.*1 → NoDup (obj_spread a b).*1.
Proof.
  unfold obj_spread. revert a. induction b as [|[k v] b IH]; intros a Ha;
    [done|].
  cbn [fold_left]. by apply IH, obj_define_NoDup.
Qed.

Lemma obj_get_spread_in k (a b : object) :
  NoDup b.*1 → k ∈ b.*1 → obj_get k (obj_spread a b) = obj_get k b.
Proof.
  revert a. induction b as [|[k1 v1] b IH]; intros a Hnd Hk.
  - by apply elem_of_nil in Hk.
  - rewrite fmap_cons in Hnd, Hk. apply NoDup_cons in Hnd as [Hk1 Hnd].
    change (obj_spread a ((k1, v1) :: b))
      with (obj_spread (obj_define k1 v1 a) b).
    simpl. destruct (String.eqb k1 k) eqn:E.
    + apply String.eqb_eq in E as ->.
      rewrite obj_get_spread_ne by done. apply obj_get_define_eq.
    + apply String.eqb_neq in E.
      apply elem_of_cons in Hk as [->|Hk]; [done|]. by apply IH.
Qed.

Lemma fold_spread_keys (g : string → object) ms (acc : object) k :
  k ∈ (fold_left (λ acc val, obj_spread (obj_spread [] acc) (g val))
         ms acc).*1
  ↔ k ∈ acc.*1 ∨ ∃ m, m ∈ ms ∧ k ∈ (g m).*1.
Proof.
  revert acc. induction ms as [|m ms IH]; intros acc.
  - simpl. split; [by left|]. intros [?|(m & Hm & _)]; [done|].
    by apply elem_of_nil in Hm.
  - cbn [fold_left]. rewrite IH, !obj_spread_keys_iff. simpl.
    rewrite elem_of_nil. split.
    + intros [[[[]|?]|?]|(m' & ? & ?)]; [by left| |].
      * right. exists m. split; [apply list_elem_of_here|done].
      * right. exists m'. split; [by apply list_elem_of_further|done].
    + intros [?|(m' & [->|?]%elem_of_cons & ?)].
      * left. left. by right.
      * left. by right.
      * right. by exists m'.
Qed.

Lemma fold_spread_elem (g : string → object) ms (acc : object) p :
  p ∈ fold_left (λ acc val, obj_spread (obj_spread [] acc) (g val)) ms acc →
  p ∈ acc ∨ ∃ m, m ∈ ms ∧ p ∈ g m.
Proof.
  assert (Hspread : ∀ a b : object, p ∈ obj_spread a b → p ∈ a ∨ p ∈ b).
  { intros a b. unfold obj_spread. revert a.
    induction b as [|[k v] b IHb]; intros a; [by left|].
    cbn [fold_left]. intros [[->|?]%obj_define_elem|?]%IHb.
    - right. apply list_elem_of_here.
    - by left.
    - right. by apply list_elem_of_further. }
  revert acc. induction ms as [|m ms IH]; intros acc; [by left|].
  cbn [fold_left]. intros [[[Hnil|?]%Hspread|?]%Hspread|(m' & ? & ?)]%IH.
  - by apply elem_of_nil in Hnil.
  - by left.
  - right. exists m. split; [apply list_elem_of_here|done].
  - right. exists m'. split; [by apply list_elem_of_further|done].
Qed.

Lemma fold_spread_NoDup (g : string → object) ms (acc : object) :
  NoDup acc.*1 →
  NoDup (fold_left (λ acc val, obj_spread (obj_spread [] acc) (g val))
           ms acc).*1.
Proof.
  revert acc. induction ms as [|m ms IH]; intros acc Hacc; [done|].
  cbn [fold_left]. apply IH, obj_spread_NoDup, obj_spread_NoDup. constructor.
Qed.

Lemma NoDup_keys_unique (o : object) k v1 v2 :
  NoDup o.*1 → (k, v1) ∈ o → (k, v2) ∈ o → v1 = v2.
Proof.
  induction o as [|[k' v'] o IH]; intros Hnd H1 H2.
  - by apply elem_of_nil in H1.
  - rewrite fmap_cons in Hnd. apply NoDup_cons in Hnd as [Hk Hnd].
    assert (Hin : ∀ v, (k', v) ∈ o → False).
    { intros v Hv. apply Hk. apply list_elem_of_fmap. by exists (k', v). }
    apply elem_of_cons in H1 as [H1|H1];
      apply elem_of_cons in H2 as [H2|H2].
    + congruence.
    + injection H1 as -> ->. by destruct (Hin v2).
    + injection H2 as -> ->. by destruct (Hin v1).
    + by apply IH.
Qed.

(** In an object gathered by spreading [g m] for each [m], the field of an
    entry of [g m] holds that entry's value, whenever the keys tell the
    [m]s apart. *)
Lemma fold_spread_get (g : string → object) ms m p :
  (∀ m1 m2 k, k ∈ (g m1).*1 → k ∈ (g m2).*1 → m1 = m2) →
  (∀ m, NoDup (g m).*1) →
  m ∈ ms → p ∈ g m →
  obj_get p.1
    (fold_left (λ acc val, obj_spread (obj_spread [] acc) (g val)) ms [])
  = p.2.
Proof.
  intros Hinj Hnd Hm Hp.
  set (o := fold_left _ ms []).
  assert (Hkey : p.1 ∈ o.*1).
  { apply fold_spread_keys. right. exists m. split; [done|].
    by apply list_elem_of_fmap_2. }
  apply obj_get_elem in Hkey.
  apply fold_spread_elem in Hkey as [Hnil|(m' & Hm' & Hp')].
  { by apply elem_of_nil in Hnil. }
  assert (m' = m) as ->.
  { apply (Hinj m' m p.1).
    - apply list_elem_of_fmap. by exists (p.1, obj_get p.1 o).
    - by apply list_elem_of_fmap_2. }
  eapply (NoDup_keys_unique (g m) p.1); [apply Hnd|done|].
  by destruct p.
Qed.

Lemma zip_into_keys_iff props vals (o : object) k :
  k ∈ (zip_into props vals o).*1 ↔ k ∈ o.*1 ∨ k ∈ props.
Proof.
  revert vals o. induction props as [|k' props IH]; intros vals o.
  - simpl. rewrite elem_of_nil. tauto.
  - cbn [zip_into]. rewrite IH, obj_define_keys, elem_of_cons. tauto.
Qed.

Lemma zip_into_NoDup props vals (o : object) :
  NoDup o.*1 → NoDup (zip_into props vals o).*1.
Proof.
  revert vals o. induction props as [|k props IH]; intros vals o Ho; [done|].
  cbn [zip_into]. by apply IH, obj_define_NoDup.
Qed.

Lemma obj_get_zip_into_other props vals (o : object) k :
  k ∉ props → obj_get k (zip_into props vals o) = obj_get k o.
Proof.
  revert vals o. induction props as [|k' props IH]; intros vals o Hk; [done|].
  apply not_elem_of_cons in Hk as [Hne Hk].
  cbn [zip_into]. rewrite IH by done. by apply obj_get_define_ne.
Qed.

(** lodash [zipObject]: with distinct keys, the key at a position holds the
    value at that position. *)
Lemma obj_get_zip_into props vals (o : object) i k :
  NoDup props → props !! i = Some k →
  obj_get k (zip_into props vals o) = js_nth vals i.
Proof.
  revert vals o i. induction props as [|k' props IH]; intros vals o i Hnd Hi.
  - done.
  - apply NoDup_cons in Hnd as [Hk Hnd]. cbn [zip_into].
    destruct i as [|i].
    + injection Hi as ->. rewrite obj_get_zip_into_other by done.
      apply obj_get_define_eq.
    + rewrite (IH _ _ i) by done. unfold js_nth. by destruct vals.
Qed.

(** lodash [zipObject] without the assumption of distinct keys: a key holds
    [v] as soon as every position where it occurs pairs it with [v]. *)
Lemma obj_get_zip_into_all props vals (o : object) k v :
  k ∈ props → (∀ i, props !! i = Some k → js_nth vals i = v) →
  obj_get k (zip_into props vals o) = v.
Proof.
  revert vals o. induction props as [|k' props IH]; intros vals o Hk Hv.
  - by apply elem_of_nil in Hk.
  - cbn [zip_into]. destruct (decide (k ∈ props)) as [Hin|Hin].
    + apply IH; [done|]. intros i Hi. specialize (Hv (S i) Hi).
      unfold js_nth in *. by destruct vals.
    + apply elem_of_cons in Hk as [->|Hk]; [|done].
      rewrite obj_get_zip_into_other by done.
      rewrite obj_get_define_eq. by apply (Hv 0).
Qed.

Lemma js_nth_fmap {A} (g : A → value) (l : list A) i x :
  l !! i = Some x → js_nth (g <$> l) i = g x.
Proof. intros H. unfold js_nth. by rewrite list_lookup_fmap, H. Qed.

Lemma mappedMeasures_keys ms k :
  k ∈ (mappedMeasures ms).*1 ↔ ∃ m, m ∈ ms ∧ k ∈ measure_keys m.
Proof.
  unfold mappedMeasures. rewrite fold_spread_keys. simpl.
  rewrite elem_of_nil. split; [intros [[]|H]|intros H; right]; exact H.
Qed.

Lemma nestedMeasures_keys ms k : k ∈ (nestedMeasures ms).*1 ↔ k ∈ ms.
Proof.
  unfold nestedMeasures. rewrite fold_spread_keys. simpl.
  rewrite elem_of_nil. split.
  - intros [[]|(m & Hm & Hk)]. apply elem_of_cons in Hk as [->|Hk]; [done|].
    by apply elem_of_nil in Hk.
  - intros Hk. right. exists k. split; [done|]. apply list_elem_of_here.
Qed.

Lemma unwrappedDimensions_keys dims k :
  k ∈ (unwrappedDimensions dims).*1 ↔ k ∈ dims.
Proof.
  unfold unwrappedDimensions, zipObject. rewrite zip_into_keys_iff. simpl.
  rewrite elem_of_nil. tauto.
Qed.

Lemma cube_group_base dims ms k :
  k = "_id" ∨ k = "count" →
  obj_get k (cube_group dims ms)
  = obj_get k [ ("_id", JObj (zipObject (dashedDimensions dims)
                                        (dollaredDimensions dims)));
                ("count", JObj [("$sum", JNum 1)]) ].
Proof.
  intros Hk. unfold cube_group. apply obj_get_spread_ne.
  rewrite mappedMeasures_keys. intros (m & _ & Hm).
  revert Hm. apply measure_keys_not. destruct Hk as [->| ->].
  - left. simpl. lia.
  - by right.
Qed.

Lemma cube_group_measure dims ms m p :
  m ∈ ms → p ∈ mapMeasure m → obj_get p.1 (cube_group dims ms) = p.2.
Proof.
  intros Hm Hp. unfold cube_group.
  rewrite obj_get_spread_in.
  - unfold mappedMeasures.
    apply (fold_spread_get mapMeasure ms m p); [| |done|done].
    + intros m1 m2 k. apply measure_keys_inj.
    + intros m'. apply measure_keys_NoDup.
  - apply fold_spread_NoDup. constructor.
  - apply mappedMeasures_keys. exists m. split; [done|].
    change (measure_keys m) with (mapMeasure m).*1.
    by apply list_elem_of_fmap_2.
Qed.

Lemma cube_project_dimension dims ms d :
  d ∈ dims →
  obj_get d (cube_project dims ms) = JStr ("$_id." +:+ js_replace "." "_" d).
Proof.
  intros Hd. unfold cube_project. rewrite obj_get_spread_in.
  - unfold unwrappedDimensions, zipObject.
    apply obj_get_zip_into_all; [done|]. intros i Hi.
    unfold _idDimensions, dashedDimensions. rewrite <- list_fmap_compose.
    by rewrite (js_nth_fmap _ dims i d).
  - apply zip_into_NoDup. constructor.
  - by apply unwrappedDimensions_keys.
Qed.

Lemma cube_project_measure dims ms m :
  m ∈ ms → m ∉ dims →
  [(m, obj_get m (cube_project dims ms))] = nestedMeasure m.
Proof.
  intros Hm Hd. unfold cube_project.
  rewrite obj_get_spread_ne by by rewrite unwrappedDimensions_keys.
  rewrite obj_get_spread_in.
  - unfold nestedMeasures.
    pose proof (fold_spread_get nestedMeasure ms m
                  (m, JObj [("sum", JStr ("$" +:+ m +:+ "_sum"));
                            ("min", JStr ("$" +:+ m +:+ "_min"));
                            ("max", JStr ("$" +:+ m +:+ "_max"));
                            ("count", JStr ("$" +:+ m +:+ "_count"))]))
      as H.
    cbn [fst snd] in H. rewrite H; [done| | |done|apply list_elem_of_here].
    + intros m1 m2 k. simpl. rewrite !elem_of_cons, !elem_of_nil.
      intros [->|[]] [->|[]]. done.
    + intros m'. simpl. apply NoDup_singleton.
  - apply fold_spread_NoDup. constructor.
  - by apply nestedMeasures_keys.
Qed.

Lemma cube_project_base dims ms k :
  k ∉ ms → k ∉ dims →
  obj_get k (cube_project dims ms)
  = obj_get k [("_id", JNum 0); ("count", JNum 1)].
Proof.
  intros Hm Hd. unfold cube_project.
  rewrite obj_get_spread_ne by by rewrite unwrappedDimensions_keys.
  apply obj_get_spread_ne. by rewrite nestedMeasures_keys.
Qed.

(** X11 (create_cube.js, [createCube]): every dimension is lifted to the
    root of the [$project] stage, where the field named after the dimension
    reads the dimension back from under the group key, [$_id.] followed by
    the name with its first dot replaced.  This holds whatever the measures
    are called: a measure with the name of a dimension is displaced by it. *)
Theorem createCube_lifts_dimension dims ms out d :
  d ∈ dims →
  ∃ group project,
    createCube dims ms out =
      [ JObj [("$group", JObj group)];
        JObj [("$project", JObj project)];
        JObj [("$out", out)] ]
    ∧ obj_get d project = JStr ("$_id." +:+ js_replace "." "_" d).
Proof.
  intros Hd. eexists _, _. split; [reflexivity|].
  by apply cube_project_dimension.
Qed.

Lemma createCube_lifts_dimension_witness :
  ∃ group project,
    createCube ["State"; "Vehicle.Body.Type"] ["State"] (JStr "cube") =
      [ JObj [("$group", JObj group)];
        JObj [("$project", JObj project)];
        JObj [("$out", JStr "cube")] ]
    ∧ obj_get "State" project = JStr ("$_id." +:+ js_replace "." "_" "State").
Proof.
  apply (createCube_lifts_dimension
           ["State"; "Vehicle.Body.Type"] ["State"] (JStr "cube") "State").
  apply list_elem_of_here.
Defined.

(** X12 (create_cube.js, [createCube]): the group key of the [$group] stage
    is an object in which the field named after a dimension, with its first
    dot replaced, reads that dimension from the documents, provided no other
    dimension is given the same field name by the replacement. *)
Theorem createCube_groups_by_dimension dims ms out d :
  d ∈ dims →
  Forall (λ d', js_replace "." "_" d' = js_replace "." "_" d → d' = d) dims →
  ∃ group project ids,
    createCube dims ms out =
      [ JObj [("$group", JObj group)];
        JObj [("$project", JObj project)];
        JObj [("$out", out)] ]
    ∧ obj_get "_id" group = JObj ids
    ∧ obj_get (js_replace "." "_" d) ids = JStr ("$" +:+ d).
Proof.
  intros Hd Hinj. eexists _, _, _. split; [reflexivity|]. split.
  - rewrite cube_group_base by by left. reflexivity.
  - unfold zipObject. apply obj_get_zip_into_all.
    + unfold dashedDimensions. by apply list_elem_of_fmap_2.
    + intros i Hi. unfold dashedDimensions in Hi.
      rewrite list_lookup_fmap in Hi.
      destruct (dims !! i) as [d'|] eqn:Hd'; [|done].
      injection Hi as Hi. unfold dollaredDimensions.
      rewrite (js_nth_fmap _ dims i d') by done.
      rewrite Forall_forall in Hinj.
      rewrite (Hinj d'); [done| |done].
      by apply list_elem_of_lookup_2 in Hd'.
Qed.

Lemma createCube_groups_by_dimension_witness :
  ∃ group project ids,
    createCube ["State"; "Vehicle.Body.Type"] ["Weight"] (JStr "cube") =
      [ JObj [("$group", JObj group)];
        JObj [("$project", JObj project)];
        JObj [("$out", JStr "cube")] ]
    ∧ obj_get "_id" group = JObj ids
    ∧ obj_get (js_replace "." "_" "Vehicle.Body.Type") ids
      = JStr ("$" +:+ "Vehicle.Body.Type").
Proof.
  apply (createCube_groups_by_dimension
           ["State"; "Vehicle.Body.Type"] ["Weight"] (JStr "cube")
           "Vehicle.Body.Type").
  - apply (bool_decide_unpack _). vm_compute. reflexivity.
  - apply (bool_decide_unpack _). vm_compute. reflexivity.
Defined.

(** X13 (create_cube.js, [createCube] and its [mapMeasure]): for every
    measure, each of the four accumulator fields [mapMeasure] builds for it
    is a field of the [$group] stage with the accumulator [mapMeasure] gave
    it; no other measure and no fixed field of the stage overwrites it, even
    when a measure is listed more than once. *)
Theorem createCube_measure_accumulators dims ms out m k v :
  m ∈ ms → (k, v) ∈ mapMeasure m →
  ∃ group project,
    createCube dims ms out =
      [ JObj [("$group", JObj group)];
        JObj [("$project", JObj project)];
        JObj [("$out", out)] ]
    ∧ obj_get k group = v.
Proof.
  intros Hm Hp. eexists _, _. split; [reflexivity|].
  exact (cube_group_measure dims ms m (k, v) Hm Hp).
Qed.

Lemma createCube_measure_accumulators_witness :
  ∃ group project,
    createCube ["State"] ["Weight"; "Price"; "Weight"] (JStr "cube") =
      [ JObj [("$group", JObj group)];
        JObj [("$project", JObj project)];
        JObj [("$out", JStr "cube")] ]
    ∧ obj_get "Weight_min" group = JObj [("$min", JStr "$Weight")].
Proof.
  apply (createCube_measure_accumulators
           ["State"] ["Weight"; "Price"; "Weight"] (JStr "cube") "Weight").
  - apply list_elem_of_here.
  - apply list_elem_of_further, list_elem_of_here.
Defined.

(** X14 (create_cube.js, [createCube]): whatever the measures are called,
    the [$group] stage keeps its group key, built by [zipObject] from the
    dimensions, and its document counter [count: {$sum: 1}]: the fields of
    the measures end in [_sum], [_min], [_max] or [_count] and never take
    the names [_id] or [count]. *)
Theorem createCube_group_key_and_count dims ms out :
  ∃ group project,
    createCube dims ms out =
      [ JObj [("$group", JObj group)];
        JObj [("$project", JObj project)];
        JObj [("$out", out)] ]
    ∧ obj_get "_id" group
      = JObj (zipObject (dashedDimensions dims) (dollaredDimensions dims))
    ∧ obj_get "count" group = JObj [("$sum", JNum 1)].
Proof.
  eexists _, _. split; [reflexivity|].
  rewrite !cube_group_base by auto. done.
Qed.

(** X15 (create_cube.js, [createCube] and its [nestedMeasure]): a measure
    that is not also a dimension is a field of the [$project] stage holding
    the object that gathers its four accumulators under [sum], [min], [max]
    and [count], as [nestedMeasure] builds it. *)
Theorem createCube_nests_measure dims ms out m :
  m ∈ ms → m ∉ dims →
  ∃ group project,
    createCube dims ms out =
      [ JObj [("$group", JObj group)];
        JObj [("$project", JObj project)];
        JObj [("$out", out)] ]
    ∧ obj_get m project
      = JObj [("sum", JStr ("$" +:+ m +:+ "_sum"));
              ("min", JStr ("$" +:+ m +:+ "_min"));
              ("max", JStr ("$" +:+ m +:+ "_max"));
              ("count", JStr ("$" +:+ m +:+ "_count"))].
Proof.
  intros Hm Hd. eexists _, _. split; [reflexivity|].
  pose proof (cube_project_measure dims ms m Hm Hd) as H.
  unfold nestedMeasure in H. by injection H.
Qed.

Lemma createCube_nests_measure_witness :
  ∃ group project,
    createCube ["State"] ["Weight"; "count"] (JStr "cube") =
      [ JObj [("$group", JObj group)];
        JObj [("$project", JObj project)];
        JObj [("$out", JStr "cube")] ]
    ∧ obj_get "count" project
      = JObj [("sum", JStr ("$" +:+ "count" +:+ "_sum"));
              ("min", JStr ("$" +:+ "count" +:+ "_min"));
              ("max", JStr ("$" +:+ "count" +:+ "_max"));
              ("count", JStr ("$" +:+ "count" +:+ "_count"))].
Proof.
  apply (createCube_nests_measure
           ["State"] ["Weight"; "count"] (JStr "cube") "count").
  - apply (bool_decide_unpack _). vm_compute. reflexivity.
  - apply (bool_decide_unpack _). vm_compute. reflexivity.
Defined.

(** X16 (create_cube.js, [createCube]): apart from the measures and the
    dimensions the [$project] stage has exactly two fields, [_id: 0] and
    [count: 1]; a name that is neither a measure nor a dimension reads as
    one of these or is absent. *)
Theorem createCube_project_other_fields dims ms out k :
  k ∉ ms → k ∉ dims →
  ∃ group project,
    createCube dims ms out =
      [ JObj [("$group", JObj group)];
        JObj [("$project", JObj project)];
        JObj [("$out", out)] ]
    ∧ obj_get k project
      = (if String.eqb k "_id" then JNum 0
         else if String.eqb k "count" then JNum 1 else JUndefined)
    ∧ (k ∈ project.*1 ↔ k = "_id" ∨ k = "count").
Proof.
  intros Hm Hd. eexists _, _. split; [reflexivity|]. split.
  - rewrite cube_project_base by done. cbn [obj_get].
    by rewrite (String.eqb_sym "_id" k), (String.eqb_sym "count" k).
  - unfold cube_project.
    rewrite !obj_spread_keys_iff, nestedMeasures_keys,
      unwrappedDimensions_keys.
    simpl. rewrite !elem_of_cons, elem_of_nil. tauto.
Qed.

Lemma createCube_project_other_fields_witness :
  ∃ group project,
    createCube ["State"] ["Weight"] (JStr "cube") =
      [ JObj [("$group", JObj group)];
        JObj [("$project", JObj project)];
        JObj [("$out", JStr "cube")] ]
    ∧ obj_get "_id" project
      = (if String.eqb "_id" "_id" then JNum 0
         else if String.eqb "_id" "count" then JNum 1 else JUndefined)
    ∧ ("_id" ∈ project.*1 ↔ "_id" = "_id" ∨ "_id" = "count").
Proof.
  apply (createCube_project_other_fields
           ["State"] ["Weight"] (JStr "cube") "_id").
  - apply (bool_decide_unpack _). vm_compute. reflexivity.
  - apply (bool_decide_unpack _). vm_compute. reflexivity.
Defined.

(** ** The renaming of dimensions *)

Lemma replace_all_fixed c r s :
  r ≠ c → (replace_all c r s = s ↔ count_char c s = 0).
Proof.
  intros Hr. induction s as [|a s IH]; [done|].
  cbn [replace_all count_char]. destruct (Ascii.eqb_spec a c) as [->|Hne].
  - split; [|done]. intros [= H _]. done.
  - rewrite <- IH. split; [by intros [= ?]|by intros ->].
Qed.

Lemma count_char_js_replace c r s :
  r ≠ c → count_char c (js_replace c r s) = pred (count_char c s).
Proof.
  intros Hr. induction s as [|a s IH]; [done|].
  cbn [js_replace count_char]. destruct (Ascii.eqb_spec a c) as [->|Hne].
  - cbn [count_char]. by rewrite (proj2 (Ascii.eqb_neq r c)).
  - cbn [count_char]. by rewrite (proj2 (Ascii.eqb_neq a c)).
Qed.

Lemma js_replace_all_iff c r s :
  r ≠ c → (js_replace c r s = replace_all c r s ↔ count_char c s ≤ 1).
Proof.
  intros Hr. induction s as [|a s IH]; [simpl; split; [lia|done]|].
  cbn [js_replace replace_all count_char].
  destruct (Ascii.eqb_spec a c) as [->|Hne].
  - rewrite <- Nat.succ_le_mono, Nat.le_0_r, <- (replace_all_fixed c r s Hr).
    split; [by intros [= ?]|by intros ->].
  - rewrite Nat.add_0_l, <- IH. split; [by intros [= ?]|by intros ->].
Qed.

(** X17 (create_cube.js, [createCube], the [replace] of line 131): the
    renaming of a dimension removes exactly one dot when there is one, so
    the field name it gives is free of dots, and is the name with every dot
    replaced, exactly when the dimension has at most one dot. *)
Theorem dashedDimensions_dots dims :
  Forall2 (λ d dashed,
             count_char "." dashed = pred (count_char "." d)
             ∧ (dashed = replace_all "." "_" d ↔ count_char "." d ≤ 1)
             ∧ (count_char "." dashed = 0 ↔ count_char "." d ≤ 1))
          dims (dashedDimensions dims).
Proof.
  unfold dashedDimensions. induction dims as [|d dims IH]; [constructor|].
  rewrite fmap_cons. constructor; [|done].
  assert (Hr : "_"%char ≠ "."%char) by done.
  split; [by apply count_char_js_replace|].
  split; [by apply js_replace_all_iff|].
  rewrite count_char_js_replace by done. lia.
Qed.

(** ** The copy made by [JSON.parse(JSON.stringify(..))] *)

Lemma json_clone_json j : is_json j = true → json_clone j = j.
Proof.
  induction j using value_rect' with
    (Q := λ l, forallb is_json l = true → clone_array l = l)
    (R := λ o, forallb (λ p, is_json p.2) o = true → clone_props o = o);
    try done.
  - intros H. change (json_clone (JArr l)) with (JArr (clone_array l)).
    f_equal. by apply IHj.
  - intros H. change (json_clone (JObj o)) with (JObj (clone_props o)).
    f_equal. by apply IHj.
  - cbn [forallb]. intros [Hv Hl]%andb_prop.
    change (clone_array (j :: l))
      with (match j with JUndefined => JNull | _ => json_clone j end
            :: clone_array l).
    rewrite IHj0 by done. destruct j; try done; by rewrite IHj.
  - cbn [forallb snd]. intros [Hv Ho]%andb_prop.
    rewrite clone_props_cons, IHj0 by done.
    destruct j; try done; by rewrite IHj.
Qed.

Lemma json_clone_is_json j :
  j ≠ JUndefined → is_json (json_clone j) = true.
Proof.
  induction j using value_rect' with
    (Q := λ l, forallb is_json (clone_array l) = true)
    (R := λ o, forallb (λ p, is_json p.2) (clone_props o) = true);
    try done.
  - change (clone_array (j :: l))
      with (match j with JUndefined => JNull | _ => json_clone j end
            :: clone_array l).
    cbn [forallb]. rewrite IHj0, andb_true_r.
    destruct j; try done; by apply IHj.
  - rewrite clone_props_cons.
    destruct j; try done; cbn [forallb snd]; rewrite IHj0, andb_true_r;
      by apply IHj.
Qed.

(** X18 (query_cube.js, [checkCompatibility], the copy of line 22): on data
    built from [null], booleans, integers, strings, arrays and objects, with
    no [undefined] anywhere, the copy is the data itself, value for value
    and in the same order, so the checks that follow read the caller's
    fields.  (Integers only: a [NaN] or an infinity would be copied to
    [null] and a negative zero to [0]; the values of this development do
    not include them.) *)
Theorem json_clone_identity j : is_json j = true → json_clone j = j.
Proof. apply json_clone_json. Qed.

Lemma json_clone_identity_witness : json_clone (JArr p2) = JArr p2.
Proof. apply (json_clone_identity (JArr p2)). reflexivity. Defined.

(** X19 (query_cube.js, [checkCompatibility], the copy of line 22): copying
    is idempotent.  Whatever the pipeline holds, its copy holds no
    [undefined] (dropped from objects, [null] in arrays), and copying the
    copy changes nothing. *)
Theorem json_clone_idempotent ppl :
  is_json (json_clone (JArr ppl)) = true
  ∧ json_clone (json_clone (JArr ppl)) = json_clone (JArr ppl).
Proof.
  assert (H : is_json (json_clone (JArr ppl)) = true)
    by by apply json_clone_is_json.
  split; [done|]. by apply json_clone_json.
Qed.

(** ** The accumulators of the rewritten grouping stage *)

Lemma grouped_fields_accumulators t :
  grouped_fields t = (grouped_accumulators t).*1.
Proof.
  destruct t as [[f a] m]. unfold grouped_fields, grouped_accumulators.
  destruct (String.eqb a "count"); [done|]. by destruct (String.eqb a "avg").
Qed.

Lemma measGroup_add_tuple_entries b t :
  measGroup (add_tuple b t)
  = fold_left (λ o p, obj_assign p.1 p.2 o) (grouped_accumulators t)
      (measGroup b).
Proof.
  destruct t as [[f a] m]. rewrite measGroup_add_tuple.
  unfold grouped_accumulators.
  destruct (String.eqb a "count"); [done|]. by destruct (String.eqb a "avg").
Qed.

Lemma measGroup_entries tuples b :
  measGroup (fold_left add_tuple tuples b)
  = fold_left (λ o p, obj_assign p.1 p.2 o) (tuples ≫= grouped_accumulators)
      (measGroup b).
Proof.
  revert b. induction tuples as [|t tuples IH]; intros b; [done|].
  cbn [fold_left]. rewrite IH, measGroup_add_tuple_entries.
  change ((t :: tuples) ≫= grouped_accumulators)
    with (grouped_accumulators t ++ tuples ≫= grouped_accumulators).
  by rewrite fold_left_app.
Qed.

Lemma obj_assign_NoDup k v (o : object) :
  NoDup o.*1 → NoDup (obj_assign k v o).*1.
Proof.
  intros H. unfold obj_assign. destruct (String.eqb k "__proto__"); [done|].
  by apply obj_define_NoDup.
Qed.

Lemma fold_assign_NoDup (E o : object) :
  NoDup o.*1 → NoDup (fold_left (λ o p, obj_assign p.1 p.2 o) E o).*1.
Proof.
  revert o. induction E as [|p E IH]; intros o Ho; [done|].
  cbn [fold_left]. by apply IH, obj_assign_NoDup.
Qed.

(** Assignments that agree on every key they share leave each key with the
    value assigned to it. *)
Lemma fold_assign_get (E o : object) k v :
  (∀ k' v', (k', v') ∈ E → k' ≠ "__proto__") →
  (∀ k' v1 v2, (k', v1) ∈ E → (k', v2) ∈ E → v1 = v2) →
  (k, v) ∈ E →
  obj_get k (fold_left (λ o p, obj_assign p.1 p.2 o) E o) = v.
Proof.
  induction E as [|[k' v'] E IH] using rev_ind; intros Hproto Hagree Hin.
  - by apply elem_of_nil in Hin.
  - rewrite fold_left_app. cbn [fold_left fst snd].
    destruct (decide (k = k')) as [->|Hne].
    + rewrite obj_get_assign_eq.
      * apply (Hagree k'); [|done]. apply elem_of_app. right.
        apply list_elem_of_here.
      * apply (Hproto k' v'). apply elem_of_app. right.
        apply list_elem_of_here.
    + rewrite obj_get_assign_ne by done. apply IH.
      * intros k1 v1 H1. apply (Hproto k1 v1). apply elem_of_app. by left.
      * intros k1 v1 v2 H1 H2.
        apply (Hagree k1); apply elem_of_app; by left.
      * apply elem_of_app in Hin as [Hin|Hin]; [done|].
        apply list_elem_of_singleton in Hin. congruence.
Qed.

Lemma grouped_accumulators_entry t k v :
  tuple_operator t ∈ tuple_operators →
  (k, v) ∈ grouped_accumulators t →
  (k = "count" ∧ v = JObj [("$sum", JStr "$count")])
  ∨ ∃ m a, a ∈ ["sum"; "min"; "max"]
           ∧ k = m +:+ "_" +:+ a
           ∧ v = JObj [("$" +:+ a, JStr ("$" +:+ m +:+ "." +:+ a))].
Proof.
  destruct t as [[f a] m]. unfold tuple_operator, tuple_operators.
  cbn [fst snd]. rewrite !elem_of_cons, elem_of_nil.
  unfold grouped_accumulators.
  intros [->|[->|[->|[->|[->|[]]]]]]; simpl;
    rewrite ?elem_of_cons, elem_of_nil;
    intros H; repeat (destruct H as [H|H]); try done;
    injection H as -> ->;
    first [ by left
          | right; exists m, "sum";
            split; [apply (bool_decide_unpack _); vm_compute; reflexivity|done]
          | right; exists m, "min";
            split; [apply (bool_decide_unpack _); vm_compute; reflexivity|done]
          | right; exists m, "max";
            split; [apply (bool_decide_unpack _); vm_compute; reflexivity|done] ].
Qed.

Lemma accumulator_key_inj m1 a1 m2 a2 :
  a1 ∈ ["sum"; "min"; "max"] → a2 ∈ ["sum"; "min"; "max"] →
  m1 +:+ "_" +:+ a1 = m2 +:+ "_" +:+ a2 → m1 = m2 ∧ a1 = a2.
Proof.
  rewrite !elem_of_cons, !elem_of_nil.
  intros [->|[->|[->|[]]]] [->|[->|[->|[]]]] H;
    apply app_suffix_inj in H as [-> H]; try done.
Qed.

Lemma accumulator_key_not m a :
  a ∈ ["sum"; "min"; "max"] →
  m +:+ "_" +:+ a ≠ "count" ∧ m +:+ "_" +:+ a ≠ "__proto__".
Proof.
  rewrite !elem_of_cons, !elem_of_nil.
  change "count" with ("c" +:+ "ount").
  change "__proto__" with ("__pro" +:+ "to__").
  intros [->|[->|[->|[]]]]; split; intros H;
    by apply app_suffix_inj in H as [_ [=]].
Qed.

(** X20 (query_cube.js, [createPipeline]): the rewritten grouping stage
    aggregates the cube's pre-aggregated values.  For tuples whose operators
    are among [sum], [min], [max], [avg] and [count] (those
    [checkCompatibility] returns), each accumulator a tuple asks for is in
    the stage with the value the loop wrote: [m_op: {$op: "$m.op"}] for a
    sum, minimum or maximum, [m_sum: {$sum: "$m.sum"}] and
    [count: {$sum: "$count"}] for an average, [count: {$sum: "$count"}] for
    a count; no later tuple overwrites it with another value. *)
Theorem createPipeline_group_accumulators ppl tuples out t k v :
  createPipeline ppl tuples = Return out →
  Forall (λ t, tuple_operator t ∈ tuple_operators) tuples →
  t ∈ tuples →
  (k, v) ∈ grouped_accumulators t →
  ∃ group rest,
    out = JObj [("$group", JObj group)] :: rest ∧ obj_get k group = v.
Proof.
  intros (g & i & _ & _ & ->)%createPipeline_Return Hops Hin Hkv.
  rewrite Forall_forall in Hops.
  assert (Hentry : ∀ k' v', (k', v') ∈ tuples ≫= grouped_accumulators →
            (k' = "count" ∧ v' = JObj [("$sum", JStr "$count")])
            ∨ ∃ m a, a ∈ ["sum"; "min"; "max"]
                     ∧ k' = m +:+ "_" +:+ a
                     ∧ v' = JObj [("$" +:+ a,
                                   JStr ("$" +:+ m +:+ "." +:+ a))]).
  { intros k' v' (t' & Hkv' & Hin')%list_elem_of_bind.
    by apply (grouped_accumulators_entry t'); [apply Hops|]. }
  assert (Hall : (k, v) ∈ tuples ≫= grouped_accumulators).
  { apply list_elem_of_bind. by exists t. }
  assert (Hproto : ∀ k' v', (k', v') ∈ tuples ≫= grouped_accumulators →
                            k' ≠ "__proto__").
  { intros k' v' [[-> _]|(m & a & Ha & -> & _)]%Hentry; [done|].
    by apply accumulator_key_not. }
  eexists _, _. split; [reflexivity|].
  rewrite obj_get_spread_in.
  - rewrite measGroup_entries. apply fold_assign_get; [done| |done].
    intros k' v1 v2 [[-> ->]|(m1 & a1 & Ha1 & -> & ->)]%Hentry
                    [[Hk ->]|(m2 & a2 & Ha2 & Hk & ->)]%Hentry.
    + done.
    + symmetry in Hk. by apply accumulator_key_not in Hk.
    + by apply accumulator_key_not in Hk.
    + by apply accumulator_key_inj in Hk as [-> ->].
  - rewrite measGroup_entries. apply fold_assign_NoDup. constructor.
  - apply measGroup_keys. right. split; [by apply (Hproto k v)|].
    exists t. split; [done|]. rewrite grouped_fields_accumulators.
    by apply (list_elem_of_fmap_2 fst _ (k, v)).
Qed.

Lemma createPipeline_group_accumulators_witness :
  ∃ group rest,
    [ JObj [("$group",
             JObj [("_id", JStr "$Model Year");
                   ("Unladen Weight_sum",
                      JObj [("$sum", JStr "$Unladen Weight.sum")]);
                   ("count", JObj [("$sum", JStr "$count")])])];
      JObj [("$set",
             JObj [("Unladen Weight_avg", naive_divide "Unladen Weight")])];
      JObj [("$project",
             JObj [("_id", JNum 1);
                   ("avg_weight", JStr "$Unladen Weight_avg")])];
      JObj [("$sort", JObj [("avg_weight", JNum (-1))])];
      JObj [("$limit", JNum 3)] ]
    = JObj [("$group", JObj group)] :: rest
    ∧ obj_get "Unladen Weight_sum" group
      = JObj [("$sum", JStr "$Unladen Weight.sum")].
Proof.
  apply (createPipeline_group_accumulators
           p2 [("avg_weight", "avg", "Unladen Weight")] _
           ("avg_weight", "avg", "Unladen Weight")).
  - reflexivity.
  - apply (bool_decide_unpack _). vm_compute. reflexivity.
  - apply list_elem_of_here.
  - apply list_elem_of_here.
Defined.
